(** * Spectre PHT-SA-IP: the victim, the byte-guessing engine and the
      Flush+Reload calibration, embedded from [spectre_pht_sa_ip.c] and
      [util.c], with the timers of [asm.c], the utilities and the option
      parser of [util.c] and the byte loop of [main.c].

    C integers are modelled as [Z].  A [size_t] or [uint64_t] value lives in
    [0, 2^64) (the target is ARMv8-A); a conversion to such a type is written
    [to_size_t].  An [int] lives in [-2^31, 2^31); signed arithmetic of the
    source is written on [Z], and the lemmas of section [Scores] bound the
    score table by the number of rounds, so no signed operation of the engine
    leaves the [int] range while [tries] is below 2^30. *)

From Stdlib Require Import Ascii String.
From Stdlib Require Import ZArith Lia Bool.
From Stdlib Require Import Floats.SpecFloat.
From stdpp Require Import base list numbers.

Local Open Scope Z_scope.

(** ** Machine integers *)

Definition SIZE_BITS : Z := 64.

(** Conversion of an integer value to [size_t] / [uint64_t]. *)
Definition to_size_t (z : Z) : Z := z mod 2 ^ SIZE_BITS.

Definition in_size_t (z : Z) : Prop := 0 <= z < 2 ^ SIZE_BITS.

Definition INT_MAX : Z := 2 ^ 31 - 1.

(** Conversion to [uint8_t]. *)
Definition to_uint8 (z : Z) : Z := z mod 256.

(** ** Constants of [spectre_pht_sa_ip.h] *)

Definition PAGESIZE : Z := 256.
Definition CACHELINE : Z := 64.

(** ** The branchless offset selection (spectre_pht_sa_ip.c, lines 124-126)

    [i] is an [int]; [i % 6], [- 1] and [& ~0xFFFF] are computed on [int],
    and the result is converted to [size_t] by the assignment to [x].  The
    shift and the remaining operations are on [size_t]. *)

Definition select_mask (i : Z) : Z :=
  let x := to_size_t (Z.land (Z.rem i 6 - 1) (Z.lnot 0xFFFF)) in
  Z.lor x (Z.shiftr x 16).

Definition select_offset (i training_x malicious_x : Z) : Z :=
  let x := select_mask i in
  Z.lxor training_x (Z.land x (Z.lxor malicious_x training_x)).

(** The conditional that the comment of line 122 says is replaced:
    [x = (i % 6 != 0) ? training_x : malicious_x]. *)
Definition select_offset_spec (i training_x malicious_x : Z) : Z :=
  if Z.rem i 6 =? 0 then malicious_x else training_x.

(** ** The visit order of the probe array (line 139) *)

Definition mix (i : Z) : Z := Z.land (i * 167 + 13) 255.

(** The 256 loop indices [0 .. 255] of [for (i = 0; i < 256; i++)]. *)
Definition candidates : list Z := seqZ 0 256.

(** The inverse of the visit order, used in the proofs only: 167 * 23 is
    1 modulo 256. *)
Definition unmix (c : Z) : Z := Z.land ((c - 13) * 23) 255.


(** ** Memory and the architectural event trace

    Arrays are lists of bytes read by index.  An instrumented semantics
    records what each statement does to memory: fences, flushes, loads and
    stores, and the entry into [victim_function]. *)

Definition load (a : list Z) (i : Z) : Z := default 0 (a !! Z.to_nat i).

Inductive location :=
| Loc_array1_size
| Loc_x
| Loc_temp
| Loc_array1 (index : Z)
| Loc_array2 (index : Z).

Inductive event :=
| Ev_mfence
| Ev_ifence
| Ev_flush (l : location)
| Ev_read (l : location)
| Ev_write (l : location)
| Ev_call_victim (x : Z).

(** The global variables of [spectre_pht_sa_ip.c] and [util.c] that the
    victim and the engine use. *)
Record globals := {
  array1 : list Z;             (* uint8_t array1[160] *)
  array1_size : Z;             (* unsigned int array1_size *)
  array2 : list Z;             (* uint8_t array2[256 * PAGESIZE] *)
  temp : Z;                    (* uint8_t temp *)
  CACHE_HIT_THRESHOLD : Z      (* int CACHE_HIT_THRESHOLD *)
}.

Definition set_temp (g : globals) (t : Z) : globals :=
  {| array1 := array1 g; array1_size := array1_size g; array2 := array2 g;
     temp := t; CACHE_HIT_THRESHOLD := CACHE_HIT_THRESHOLD g |}.

(** The initializers of lines 36-49. *)
Definition initial_globals : globals :=
  {| array1 := [1; 2; 3; 4; 5; 6; 7; 8; 9; 10; 11; 12; 13; 14; 15; 16]
                 ++ replicate 144 0;
     array1_size := 16;
     array2 := replicate (Z.to_nat (256 * PAGESIZE)) 0;
     temp := 0;
     CACHE_HIT_THRESHOLD := 0 |}.

(** The globals as [main] leaves them before the first call of the engine:
    [memset(array2, 1, sizeof(array2))] and the threshold set. *)
Definition main_globals (threshold : Z) : globals :=
  {| array1 := array1 initial_globals;
     array1_size := array1_size initial_globals;
     array2 := replicate (Z.to_nat (256 * PAGESIZE)) 1;
     temp := temp initial_globals;
     CACHE_HIT_THRESHOLD := threshold |}.

(** ** The victim (lines 54-68)

    The bounds check is [(float) x / (float) array1_size < 1] in IEEE-754
    binary32 (24 bits of precision, [emax = 128]), conversions and division
    rounding to nearest even. *)

Definition float_prec : Z := 24.
Definition float_emax : Z := 128.

Definition float_of_Z (z : Z) : spec_float :=
  binary_normalize float_prec float_emax z 0 false.

Definition float_div (a b : spec_float) : spec_float :=
  SFdiv float_prec float_emax a b.

Definition bounds_check (x size : Z) : bool :=
  SFltb (float_div (float_of_Z x) (float_of_Z size)) (float_of_Z 1).

Definition victim_prologue : list event :=
  [Ev_mfence; Ev_flush Loc_array1_size; Ev_flush Loc_x; Ev_mfence; Ev_ifence;
   Ev_read Loc_x; Ev_read Loc_array1_size].

Definition victim_function (g : globals) (x : Z) : globals * list event :=
  if bounds_check x (array1_size g) then
    let index := load (array1 g) x * PAGESIZE in
    (set_temp g (Z.land (temp g) (load (array2 g) index)),
     victim_prologue ++ [Ev_read (Loc_array1 x); Ev_read (Loc_array2 index);
                         Ev_read Loc_temp; Ev_write Loc_temp])
  else (g, victim_prologue).

(** The array elements that a trace reads or writes. *)
Definition array_access (e : event) : option location :=
  match e with
  | Ev_read (Loc_array1 i) | Ev_write (Loc_array1 i) => Some (Loc_array1 i)
  | Ev_read (Loc_array2 i) | Ev_write (Loc_array2 i) => Some (Loc_array2 i)
  | _ => None
  end.

Definition array_accesses (tr : list event) : list location :=
  omap array_access tr.

(** ** Program arguments ([util.h], [util.c]) *)

Record arguments := {
  quiet : Z;
  verbose : Z;
  meta : Z;
  tries : Z;
  loops : Z;
  cache_threshold : Z
}.

Definition arg_init : arguments :=
  {| quiet := 0; verbose := 0; meta := 1; tries := 999; loops := 30;
     cache_threshold := 0 |}.

(** ** The byte-guessing engine (lines 72-179) *)

(** The cycle counter: [rdtsc()] is a macro of [asm.h]; its two readings
    around the reload of round [tries], visit [i], are taken from the
    machine. *)
Record machine := {
  rdtsc_start : Z -> Z -> Z;   (* line 142 *)
  rdtsc_end : Z -> Z -> Z      (* line 144 *)
}.

(** Lines 104-111: flush the 256 probe slots. *)
Definition evict_channel : list event :=
  flat_map (fun i => [Ev_flush (Loc_array2 (i * PAGESIZE)); Ev_mfence; Ev_ifence])
           candidates.

(** The values of [i] in [for (i = n; i >= 0; i--)]. *)
Definition countdown (n : Z) : list Z := reverse (seqZ 0 (n + 1)).

(** Lines 119-130: one pass of the training loop body. *)
Definition train_step (training_x malicious_x : Z)
    (acc : globals * list event) (i : Z) : globals * list event :=
  let x := select_offset i training_x malicious_x in
  let r := victim_function (fst acc) x in
  (fst r, snd acc ++ Ev_mfence :: Ev_call_victim x :: snd r).

Definition train_and_attack (g : globals) (loops training_x malicious_x : Z)
    : globals * list event :=
  fold_left (train_step training_x malicious_x) (countdown loops) (g, []).

Definition victim_calls (tr : list event) : list Z :=
  omap (fun e => match e with Ev_call_victim x => Some x | _ => None end) tr.

(** Lines 142-144: [time2 = rdtsc() - time1] on [uint64_t]. *)
Definition reload_time (m : machine) (tries i : Z) : Z :=
  to_size_t (rdtsc_end m tries i - rdtsc_start m tries i).

(** Line 148: [time2] is a [uint64_t], so the [int] threshold is converted
    to [uint64_t] for the comparison. *)
Definition is_hit (g : globals) (time2 mix_i training_x : Z) : bool :=
  (time2 <=? to_size_t (CACHE_HIT_THRESHOLD g))
  && negb (mix_i =? load (array1 g) training_x).

(** Lines 137-150: one visit; the accumulator is [(results, junk)]. *)
Definition measure_step (g : globals) (m : machine) (tries training_x : Z)
    (acc : list Z * Z) (i : Z) : list Z * Z :=
  let mix_i := mix i in
  let junk := load (array2 g) (mix_i * PAGESIZE) in
  let time2 := reload_time m tries i in
  if is_hit g time2 mix_i training_x
  then (alter Z.succ (Z.to_nat mix_i) (fst acc), junk)
  else (fst acc, junk).

Definition measure_channel (g : globals) (m : machine) (tries training_x : Z)
    (results : list Z) (junk : Z) : list Z * Z :=
  fold_left (measure_step g m tries training_x) candidates (results, junk).

(** The array elements that the measurement loads: the probe slot of each
    visit (line 143) and, when the first operand of the [&&] of line 148
    holds, [array1[training_x]]. *)
Definition measure_events (g : globals) (m : machine) (tries training_x : Z)
    : list event :=
  flat_map
    (fun i =>
       Ev_read (Loc_array2 (mix i * PAGESIZE))
       :: (if reload_time m tries i <=? to_size_t (CACHE_HIT_THRESHOLD g)
           then [Ev_read (Loc_array1 training_x)] else []))
    candidates.

(** Lines 156-167: first place [j] and second place [k]. *)
Definition scan_step (results : list Z) (jk : Z * Z) (i : Z) : Z * Z :=
  let '(j, k) := jk in
  if (if j <? 0 then true else load results i >=? load results j) then (i, j)
  else if (if k <? 0 then true else load results i >=? load results k) then (j, i)
  else (j, k).

Definition locate_best (results : list Z) : Z * Z :=
  fold_left (scan_step results) candidates (-1, -1).

(** Line 171. *)
Definition clear_success (results : list Z) (j k : Z) : bool :=
  (load results j >=? 2 * load results k)
  || ((load results j =? 2) && (load results k =? 0)).

(** The state of the engine between rounds.  [best] is [(j, k)], which no
    initializer sets before the first scan; [history] holds the trace of
    each round that ran, the latest first. *)
Record engine := {
  results : list Z;            (* static int results[256] *)
  junk : Z;
  best : option (Z * Z);
  globs : globals;
  history : list (list event)
}.

Definition rounds_run (st : engine) : nat := length (history st).

Definition to_uint32 (z : Z) : Z := z mod 2 ^ 32.

(** Line 116: [tries] is converted to [unsigned int] for the [%]. *)
Definition training_offset (g : globals) (tries : Z) : Z :=
  to_size_t (to_uint32 tries mod array1_size g).

(** Lines 101-167: the body of one round, [tries] being the value of the
    loop counter. *)
Definition attempt (m : machine) (loops malicious_x tries : Z) (st : engine)
    : engine :=
  let training_x := training_offset (globs st) tries in
  let ta := train_and_attack (globs st) loops training_x malicious_x in
  let mc := measure_channel (fst ta) m tries training_x (results st) (junk st) in
  {| results := fst mc;
     junk := snd mc;
     best := Some (locate_best (fst mc));
     globs := fst ta;
     history :=
       (evict_channel ++ snd ta
        ++ Ev_mfence :: measure_events (fst ta) m tries training_x)
       :: history st |}.

Definition clear_success_now (st : engine) : bool :=
  match best st with
  | Some (j, k) => clear_success (results st) j k
  | None => false
  end.

(** Lines 100-173: [for (; tries > 0; tries--)] with its [break].  The
    boolean tells whether the loop was left through the [break]. *)
Fixpoint attempts (m : machine) (loops malicious_x : Z) (tries : nat)
    (st : engine) : engine * bool :=
  match tries with
  | O => (st, false)
  | S n =>
      let st' := attempt m loops malicious_x (Z.of_nat tries) st in
      if clear_success_now st' then (st', true)
      else attempts m loops malicious_x n st'
  end.

(** The same rounds without the [break]: the state after [r] rounds that
    start with the loop counter at [tries]. *)
Fixpoint rounds_unbroken (m : machine) (loops malicious_x : Z) (r : nat)
    (tries : Z) (st : engine) : engine :=
  match r with
  | O => st
  | S r' =>
      rounds_unbroken m loops malicious_x r' (tries - 1)
                      (attempt m loops malicious_x tries st)
  end.

(** Line 98 and the declarations of lines 79-95. *)
Definition engine_start (g : globals) : engine :=
  {| results := replicate 256 0; junk := 0; best := None; globs := g;
     history := [] |}.

Definition engine_loop (m : machine) (g : globals) (malicious_x : Z)
    (args : arguments) : engine * bool :=
  attempts m (loops args) malicious_x (Z.to_nat (tries args)) (engine_start g).

(** Lines 176-178.  The result is the pair of [*value] and [*score]; there is none when no
    round ran, [j] being read uninitialized. *)
Definition report (st : engine) : option (Z * Z) :=
  match best st with
  | None => None
  | Some (j, _) =>
      let results' := alter (fun r => Z.lxor r (junk st)) 0%nat (results st) in
      Some (to_uint8 j, load results' j)
  end.

Definition spectre_pht_sa_ip_read (m : machine) (g : globals)
    (malicious_x : Z) (args : arguments) : option (Z * Z) :=
  report (fst (engine_loop m g malicious_x args)).

(** The condition of line 171, read on the state that a round leaves:
    [results[j] >= 2 * results[k]], or [results[j] == 2] and
    [results[k] == 0]. *)
Definition convincing_majority (st : engine) : Prop :=
  match best st with
  | Some (j, k) =>
      load (results st) j >= 2 * load (results st) k
      \/ (load (results st) j = 2 /\ load (results st) k = 0)
  | None => False
  end.

(** The invariant of the score table: it has 256 entries, each between 0
    and the number of rounds that ran. *)
Definition scores_bounded (st : engine) : Prop :=
  length (results st) = 256%nat
  /\ forall c, 0 <= c < 256 ->
       0 <= load (results st) c <= Z.of_nat (rounds_run st).

(** ** Concrete machines and configurations used to run the engine *)

(** Every reload takes 500 cycles. *)
Definition never_hits : machine :=
  {| rdtsc_start := fun _ _ => 0; rdtsc_end := fun _ _ => 500 |}.

(** The reload of candidate 0 takes 10 cycles, every other one 500. *)
Definition only_zero_hits : machine :=
  {| rdtsc_start := fun _ _ => 0;
     rdtsc_end := fun _ i => if mix i =? 0 then 10 else 500 |}.

(** The reload of candidate [b] takes 10 cycles, every other one 500. *)
Definition leaks (b : Z) : machine :=
  {| rdtsc_start := fun _ _ => 0;
     rdtsc_end := fun _ i => if mix i =? b then 10 else 500 |}.

Definition one_try : arguments :=
  {| quiet := 0; verbose := 0; meta := 1; tries := 1; loops := 30;
     cache_threshold := 100 |}.

(** ** Flush+Reload calibration ([asm.c], [util.c] lines 186-209) *)

Definition to_int (z : Z) : Z := (z + 2 ^ 31) mod 2 ^ 32 - 2 ^ 31.

(** [reload_t] and [flush_reload_t] return [(int)(end - start)], the two
    readings of the cycle counter being [uint64_t]. *)
Definition reload_t (clock : Z * Z) : Z :=
  to_int (to_size_t (snd clock - fst clock)).

Definition flush_reload_t (clock : Z * Z) : Z :=
  to_int (to_size_t (snd clock - fst clock)).

(** [count = gem5_is_sim() ? 10 : 100000]. *)
Definition calibration_count (gem5_is_sim : Z) : Z :=
  if gem5_is_sim =? 0 then 100000 else 10.

(** [for (int i = 0; i < count; i++) total += sample(i)], on [size_t]. *)
Definition accumulate (sample : Z -> Z) (count : Z) : Z :=
  fold_left (fun total i => to_size_t (total + to_size_t (sample i)))
            (seqZ 0 count) 0.

(** The two means of lines 205-206; the clocks give the counter readings
    of the i-th call of [reload_t] and of [flush_reload_t]. *)
Definition mean_reload_time (gem5_is_sim : Z) (reload_clock : Z -> Z * Z) : Z :=
  let count := calibration_count gem5_is_sim in
  accumulate (fun i => reload_t (reload_clock i)) count / count.

Definition mean_flush_reload_time (gem5_is_sim : Z)
    (flush_clock : Z -> Z * Z) : Z :=
  let count := calibration_count gem5_is_sim in
  accumulate (fun i => flush_reload_t (flush_clock i)) count / count.

Definition flush_reload_threshold (gem5_is_sim : Z)
    (reload_clock flush_clock : Z -> Z * Z) : Z :=
  let reload_time := mean_reload_time gem5_is_sim reload_clock in
  let flush_reload_time := mean_flush_reload_time gem5_is_sim flush_clock in
  to_size_t (flush_reload_time + to_size_t (reload_time * 2)) / 3.

(** What the scan of lines 156-167 maintains after the candidates below
    [n]: [j] is the last index with the greatest score, and [k], unset while
    there is one candidate only, is the last index with the greatest score
    among the others. *)
Definition top_two (results : list Z) (n : Z) (jk : Z * Z) : Prop :=
  let '(j, k) := jk in
  0 <= j < n
  /\ (forall i, 0 <= i < n -> load results i <= load results j)
  /\ (forall i, j < i < n -> load results i < load results j)
  /\ ((k = -1 /\ n = 1)
      \/ (0 <= k < n /\ k <> j
          /\ (forall i, 0 <= i < n -> i <> j ->
                load results i <= load results k)
          /\ (forall i, k < i < n -> i <> j ->
                load results i < load results k))).

(** The score table after one round in which candidate [b] alone was hit,
    and what the scan and line 171 make of it. *)
Definition single_hit (b : Z) : list Z :=
  <[Z.to_nat b := 1]> (replicate 256 0).

Definition single_hit_first (b : Z) : bool :=
  let jk := locate_best (single_hit b) in
  (fst jk =? b) && clear_success (single_hit b) (fst jk) (snd jk).

(** ** What the engine leaves of the globals, and what it reads *)

(** [g'] differs from [g] in [temp] at most. *)
Definition same_arrays (g g' : globals) : Prop :=
  array1 g' = array1 g /\ array1_size g' = array1_size g
  /\ array2 g' = array2 g /\ CACHE_HIT_THRESHOLD g' = CACHE_HIT_THRESHOLD g.

(** Two states of the engine that differ in [temp] and in the traces at
    most. *)
Definition same_view (st st' : engine) : Prop :=
  results st' = results st /\ junk st' = junk st /\ best st' = best st
  /\ rounds_run st' = rounds_run st /\ same_arrays (globs st) (globs st').

(** An event that loads or stores an array element does so inside the
    declared span of [array1], or inside [array2]. *)
Definition in_bounds_event (g : globals) (e : event) : Prop :=
  match array_access e with
  | Some (Loc_array1 i) => 0 <= i < array1_size g
  | Some (Loc_array2 i) => 0 <= i < 256 * PAGESIZE
  | _ => True
  end.

(** The number of rounds, among the [r] rounds that start with the loop
    counter at [tries], in which the reload of candidate [c] is a hit. *)
Fixpoint hit_count (m : machine) (g : globals) (c : Z) (r : nat) (tries : Z)
    : Z :=
  match r with
  | O => 0
  | S r' =>
      (if is_hit g (reload_time m tries (unmix c)) c (training_offset g tries)
       then 1 else 0)
      + hit_count m g c r' (tries - 1)
  end.

(** ** Strings and arrays of [util.c] (lines 47-63)

    A C string or array is the list of its elements.  The sums are [int]s:
    in [string_hamming_dist] the sum is at most [size]; in [int_sum] a sum
    that leaves the [int] range is undefined in C, and the model has no
    result there. *)

Definition string_hamming_dist (str1 str2 : list Z) (size : Z) : Z :=
  fold_left
    (fun sum i => sum + (if negb (load str1 i =? load str2 i) then 1 else 0))
    (seqZ 0 size) 0.

(** The sum of the first [k] elements, as a number. *)
Definition prefix_sum (array : list Z) (k : Z) : Z :=
  foldr Z.add 0 (map (load array) (seqZ 0 k)).

Definition in_int (z : Z) : bool := (- 2 ^ 31 <=? z) && (z <=? INT_MAX).

Definition int_add (a b : Z) : option Z :=
  if in_int (a + b) then Some (a + b) else None.

Definition int_sum (array : list Z) (size : Z) : option Z :=
  fold_left (fun sum i => sum ≫= fun s => int_add s (load array i))
            (seqZ 0 size) (Some 0).

(** ** The option parser of [util.c] (lines 86-138)

    [arg] stands for [atoi(arg)].  [argp_usage] prints the usage message and
    ends the program ([arg_parse] gives [argp_parse] no flag), so the
    assignment that precedes it is not observed.  [ARGP_KEY_END] and
    [ARGP_ERR_UNKNOWN] are constants of [argp.h]. *)

Definition char_code (c : ascii) : Z := Z.of_N (N_of_ascii c).

Inductive parse_outcome :=
| Parse_return (ret : Z) (a : arguments)
| Parse_usage.

Section ArgParse.

Variables (ARGP_KEY_END ARGP_ERR_UNKNOWN : Z).

Definition arg_parse_opt (key arg : Z) (a : arguments) : parse_outcome :=
  if (key =? char_code "q") || (key =? char_code "s") then
    Parse_return 0
      {| quiet := 1; verbose := verbose a; meta := meta a; tries := tries a;
         loops := loops a; cache_threshold := cache_threshold a |}
  else if key =? char_code "v" then
    Parse_return 0
      {| quiet := quiet a; verbose := 1; meta := meta a; tries := tries a;
         loops := loops a; cache_threshold := cache_threshold a |}
  else if key =? char_code "m" then
    if arg <=? 0 then Parse_usage
    else Parse_return 0
           {| quiet := quiet a; verbose := verbose a; meta := arg;
              tries := tries a; loops := loops a;
              cache_threshold := cache_threshold a |}
  else if key =? char_code "t" then
    if arg <=? 0 then Parse_usage
    else Parse_return 0
           {| quiet := quiet a; verbose := verbose a; meta := meta a;
              tries := arg; loops := loops a;
              cache_threshold := cache_threshold a |}
  else if key =? char_code "l" then
    if arg <=? 0 then Parse_usage
    else Parse_return 0
           {| quiet := quiet a; verbose := verbose a; meta := meta a;
              tries := tries a; loops := arg;
              cache_threshold := cache_threshold a |}
  else if key =? char_code "c" then
    if arg <=? 0 then Parse_usage
    else Parse_return 0
           {| quiet := quiet a; verbose := verbose a; meta := meta a;
              tries := tries a; loops := loops a; cache_threshold := arg |}
  else if key =? ARGP_KEY_END then Parse_return 0 a
  else Parse_return ARGP_ERR_UNKNOWN a.

(** The calls that [argp_parse] makes to the parser, one per key, each with
    the structure that the call before left; there is no structure left when
    a call ends the program. *)
Fixpoint arg_parse_calls (calls : list (Z * Z)) (a : arguments)
    : option arguments :=
  match calls with
  | [] => Some a
  | (key, arg) :: rest =>
      match arg_parse_opt key arg a with
      | Parse_return _ a' => arg_parse_calls rest a'
      | Parse_usage => None
      end
  end.

End ArgParse.

(** What the parser maintains: the flags are 0 or 1, the counts are
    positive, and the threshold is 0 (to be calibrated) or positive. *)
Definition valid_arguments (a : arguments) : Prop :=
  (quiet a = 0 \/ quiet a = 1) /\ (verbose a = 0 \/ verbose a = 1)
  /\ 1 <= meta a /\ 1 <= tries a /\ 1 <= loops a /\ 0 <= cache_threshold a.

(** ** The simulation switch of [util.c] (lines 213-216)

    [strcmp] of the C library, on strings without their terminator: the
    difference of the first two bytes that differ, the terminator being 0.
    The C standard fixes the sign of the result only. *)

Fixpoint strcmp (s1 s2 : string) : Z :=
  match s1, s2 with
  | EmptyString, EmptyString => 0
  | EmptyString, String c2 _ => 0 - char_code c2
  | String c1 _, EmptyString => char_code c1
  | String c1 r1, String c2 r2 =>
      if char_code c1 =? char_code c2 then strcmp r1 r2
      else char_code c1 - char_code c2
  end.

(** A C string holds no byte 0 before its terminator. *)
Fixpoint no_nul (s : string) : bool :=
  match s with
  | EmptyString => true
  | String c r => negb (char_code c =? 0) && no_nul r
  end.

(** [GEM5_SIM] is the result of [getenv("GEM5_SIM")]. *)
Definition gem5_is_sim (GEM5_SIM : option string) : Z :=
  match GEM5_SIM with
  | Some gem5_sim => strcmp gem5_sim "false"
  | None => 0
  end.

(** ** One repetition of the experiment ([main.c], lines 40-99)

    What is kept of [main]: the choice of the threshold, the filling of the
    probe array, the loop that reads the secret byte after byte, and the
    first three numbers of the statistics line.  The clock, the performance
    counters and the printing are left out.  [machines i] times the reloads
    of the call for byte [i]; [calibrated] is the result of
    [flush_reload_threshold()]; [malicious_x] is the distance from [array1]
    to the secret. *)

Definition secret : string := "The Magic Words are Squeamish Ossifrage.".

Definition string_bytes (s : string) : list Z :=
  map char_code (list_ascii_of_string s).

(** Line 42: the conditional has type [size_t], and its value is converted
    to the [int] [CACHE_HIT_THRESHOLD]. *)
Definition choose_threshold (args : arguments) (calibrated : Z) : Z :=
  to_int (if cache_threshold args =? 0 then calibrated
          else to_size_t (cache_threshold args)).

(** Lines 42 and 61. *)
Definition prepare_globals (g : globals) (threshold : Z) : globals :=
  {| array1 := array1 g; array1_size := array1_size g;
     array2 := replicate (Z.to_nat (256 * PAGESIZE)) 1;
     temp := temp g; CACHE_HIT_THRESHOLD := threshold |}.

(** Lines 72-76: [n] calls of the engine, from byte [i] at offset
    [malicious_x]; each call starts from the globals that the call before
    left. *)
Fixpoint read_bytes (machines : Z -> machine) (args : arguments) (n : nat)
    (i malicious_x : Z) (g : globals) : list (option (Z * Z)) :=
  match n with
  | O => []
  | S n' =>
      let run := fst (engine_loop (machines i) g malicious_x args) in
      report run
      :: read_bytes machines args n' (i + 1) (to_size_t (malicious_x + 1))
                    (globs run)
  end.

(** The total of bytes, the correct bytes and the sum of the scores; the
    two arrays of guesses have one element more than the secret has bytes,
    set to 0 by [calloc]. *)
Definition experiment (machines : Z -> machine) (args : arguments)
    (malicious_x calibrated : Z) (g : globals) : option (Z * Z * option Z) :=
  let malicious_it := Z.of_nat (String.length secret) in
  let start := prepare_globals g (choose_threshold args calibrated) in
  guesses ← mapM id (read_bytes machines args (Z.to_nat malicious_it) 0
                                malicious_x start);
  Some (malicious_it,
        malicious_it
        - string_hamming_dist (string_bytes secret)
                              (map fst guesses ++ [0]) malicious_it,
        int_sum (map snd guesses ++ [0]) malicious_it).

(** * Theorems *)

Section Selection.

Lemma select_mask_cases (i : Z) :
  0 <= i ->
  select_mask i = if i mod 6 =? 0 then Z.ones 64 else 0.
Proof.
  intros Hi. unfold select_mask.
  rewrite Z.rem_mod_nonneg by lia.
  assert (Hr : 0 <= i mod 6 < 6) by (apply Z.mod_pos_bound; lia).
  assert (Hc : i mod 6 = 0 \/ i mod 6 = 1 \/ i mod 6 = 2 \/ i mod 6 = 3
               \/ i mod 6 = 4 \/ i mod 6 = 5) by lia.
  destruct Hc as [-> | [-> | [-> | [-> | [-> | ->]]]]]; reflexivity.
Qed.

Lemma lxor_in_size_t (a b : Z) :
  in_size_t a -> in_size_t b -> in_size_t (Z.lxor a b).
Proof.
  unfold in_size_t, SIZE_BITS. intros Ha Hb.
  assert (Hnn : 0 <= Z.lxor a b) by (apply Z.lxor_nonneg; lia).
  split; [exact Hnn|].
  destruct (Z.eq_dec (Z.lxor a b) 0) as [-> | Hne]; [reflexivity|].
  apply Z.log2_lt_pow2; [lia|].
  eapply Z.le_lt_trans; [apply Z.log2_lxor; lia|].
  apply Z.max_lub_lt.
  - destruct (Z.eq_dec a 0) as [-> | ?]; [reflexivity|].
    apply Z.log2_lt_pow2; lia.
  - destruct (Z.eq_dec b 0) as [-> | ?]; [reflexivity|].
    apply Z.log2_lt_pow2; lia.
Qed.

Lemma lxor_cancel_r (a b : Z) : Z.lxor b (Z.lxor a b) = a.
Proof.
  rewrite (Z.lxor_comm a b), <- Z.lxor_assoc, Z.lxor_nilpotent.
  apply Z.lxor_0_l.
Qed.

End Selection.

(** C2. The three-step bit-twiddling sequence yields [malicious_x] exactly
    when [i mod 6 = 0] and [training_x] otherwise, for every call index
    [i >= 0] and all [size_t] offsets. *)
Theorem select_offset_branchless (i training_x malicious_x : Z) :
  0 <= i -> in_size_t training_x -> in_size_t malicious_x ->
  select_offset i training_x malicious_x
  = (if i mod 6 =? 0 then malicious_x else training_x)
  /\ select_offset i training_x malicious_x
     = select_offset_spec i training_x malicious_x.
Proof.
  intros Hi Ht Hm.
  assert (H : select_offset i training_x malicious_x
              = if i mod 6 =? 0 then malicious_x else training_x).
  { unfold select_offset. rewrite select_mask_cases by exact Hi.
    destruct (i mod 6 =? 0).
    - rewrite Z.land_comm, Z.land_ones by lia.
      pose proof (lxor_in_size_t _ _ Hm Ht) as Hx.
      unfold in_size_t, SIZE_BITS in Hx.
      rewrite Z.mod_small by exact Hx.
      apply lxor_cancel_r.
    - rewrite Z.land_0_l. apply Z.lxor_0_r. }
  split; [exact H|].
  rewrite H. unfold select_offset_spec.
  rewrite Z.rem_mod_nonneg by lia. reflexivity.
Qed.

Lemma select_offset_branchless_witness :
  select_offset 30 7 4242 = 4242 /\ select_offset 29 7 4242 = 7.
Proof.
  split.
  - apply (proj1 (select_offset_branchless 30 7 4242
                    ltac:(lia) ltac:(unfold in_size_t, SIZE_BITS; lia)
                    ltac:(unfold in_size_t, SIZE_BITS; lia))).
  - apply (proj1 (select_offset_branchless 29 7 4242
                    ltac:(lia) ltac:(unfold in_size_t, SIZE_BITS; lia)
                    ltac:(unfold in_size_t, SIZE_BITS; lia))).
Defined.

(** ** The bounds check of the victim

    The conversion of a [size_t] to binary32 and the division by 16.0 are
    followed through the operations of [SpecFloat]: a conversion or a
    division normalizes its result to a mantissa of 24 bits, and the exponent
    of the result bounds it from below. *)

Section FloatGuard.

(** [digits2_pos] is the bit length of a positive number. *)
Lemma digits2_pos_size (p : positive) : digits2_pos p = Pos.size p.
Proof. induction p as [p IH|p IH|]; simpl; congruence. Qed.

Lemma digits2_pos_log2 (p : positive) :
  Z.pos (digits2_pos p) = Z.log2 (Z.pos p) + 1.
Proof.
  rewrite digits2_pos_size.
  destruct p as [p|p|]; simpl; rewrite ?Pos2Z.inj_succ; try lia.
Qed.

(** A number of [d] bits lies in [2^(d-1), 2^d), and conversely. *)
Lemma digits2_pos_bounds (p : positive) :
  2 ^ (Z.pos (digits2_pos p) - 1) <= Z.pos p < 2 ^ Z.pos (digits2_pos p).
Proof.
  rewrite digits2_pos_log2.
  replace (Z.log2 (Z.pos p) + 1 - 1) with (Z.log2 (Z.pos p)) by lia.
  apply Z.log2_spec. lia.
Qed.

Lemma digits2_pos_unique (p : positive) (d : Z) :
  2 ^ (d - 1) <= Z.pos p < 2 ^ d -> 1 <= d -> Z.pos (digits2_pos p) = d.
Proof.
  intros Hb Hd. rewrite digits2_pos_log2.
  rewrite (Z.log2_unique (Z.pos p) (d - 1)); [lia | lia |].
  replace (Z.succ (d - 1)) with d by lia. exact Hb.
Qed.

(** Away from the subnormal range the exponent of a value with [e] bits
    above the point is [e - 24]. *)
Lemma fexp_normal (e : Z) :
  -125 <= e -> fexp float_prec float_emax e = e - 24.
Proof. intros He. unfold fexp, emin, float_prec, float_emax. lia. Qed.

(** One shift right halves the mantissa; [n] shifts divide it by [2^n]. *)
Lemma shr_1_m (mrs : shr_record) :
  0 <= shr_m mrs ->
  shr_m (shr_1 mrs) = shr_m mrs / 2.
Proof.
  destruct mrs as [mm r s]. cbn [shr_m]. intros Hm.
  destruct mm as [|[p|p|]|p]; cbn [shr_1 shr_m]; [reflexivity| | |reflexivity|lia].
  - rewrite Pos2Z.inj_xI. apply Z.div_unique with (r := 1); lia.
  - rewrite Pos2Z.inj_xO. apply Z.div_unique with (r := 0); lia.
Qed.

Lemma shr_1_nonneg (mrs : shr_record) :
  0 <= shr_m mrs -> 0 <= shr_m (shr_1 mrs).
Proof.
  intros H. rewrite shr_1_m by exact H. apply Z.div_pos; lia.
Qed.

Lemma pow2_xO (n : positive) : 2 ^ Z.pos n~0 = 2 ^ Z.pos n * 2 ^ Z.pos n.
Proof. rewrite Pos2Z.inj_xO, <- Z.pow_add_r by lia. f_equal. lia. Qed.

Lemma pow2_xI (n : positive) : 2 ^ Z.pos n~1 = 2 * (2 ^ Z.pos n * 2 ^ Z.pos n).
Proof.
  rewrite Pos2Z.inj_xI, <- Z.pow_add_r by lia.
  replace (2 * Z.pos n + 1) with (Z.succ (Z.pos n + Z.pos n)) by lia.
  apply Z.pow_succ_r. lia.
Qed.

Lemma iter_shr_1_m (n : positive) :
  forall mrs, 0 <= shr_m mrs ->
    shr_m (SpecFloat.iter_pos shr_1 n mrs) = shr_m mrs / 2 ^ Z.pos n.
Proof.
  induction n as [n IH|n IH|]; intros mrs Hm; cbn [SpecFloat.iter_pos].
  - assert (H1 : 0 <= shr_m (shr_1 mrs)) by (apply shr_1_nonneg, Hm).
    assert (H2 : 0 <= shr_m (SpecFloat.iter_pos shr_1 n (shr_1 mrs))).
    { rewrite IH by exact H1. apply Z.div_pos; lia. }
    rewrite IH by exact H2. rewrite IH by exact H1. rewrite shr_1_m by exact Hm.
    rewrite !Z.div_div by lia. rewrite pow2_xI. reflexivity.
  - assert (H2 : 0 <= shr_m (SpecFloat.iter_pos shr_1 n mrs)).
    { rewrite IH by exact Hm. apply Z.div_pos; lia. }
    rewrite IH by exact H2. rewrite IH by exact Hm.
    rewrite !Z.div_div by lia. rewrite pow2_xO. reflexivity.
  - rewrite shr_1_m by exact Hm. reflexivity.
Qed.

Lemma shr_m_spec (mrs : shr_record) (e n : Z) :
  0 <= shr_m mrs -> 0 <= n ->
  shr_m (fst (shr mrs e n)) = shr_m mrs / 2 ^ n /\ snd (shr mrs e n) = e + n.
Proof.
  intros Hm Hn. destruct n as [|n|n]; [| |lia]; cbn [shr fst snd].
  - rewrite Z.div_1_r. lia.
  - split; [apply iter_shr_1_m, Hm | reflexivity].
Qed.

(** Rounding to nearest even adds 0 or 1 to the truncated mantissa. *)
Lemma round_nearest_even_bounds (q : Z) (l : SpecFloat.location) :
  q <= round_nearest_even q l <= q + 1.
Proof.
  destruct l as [|[| |]]; cbn [round_nearest_even]; try lia.
  destruct (Z.even q); lia.
Qed.

(** Dropping the bits beyond 24 leaves a mantissa of 24 bits. *)
Lemma shifted_mantissa_bounds (p : positive) (n : Z) :
  0 <= n -> Z.pos (digits2_pos p) = n + 24 ->
  2 ^ 23 <= Z.pos p / 2 ^ n < 2 ^ 24.
Proof.
  intros Hn Hd. pose proof (digits2_pos_bounds p) as Hb. rewrite Hd in Hb.
  replace (n + 24 - 1) with (23 + n) in Hb by lia.
  replace (n + 24) with (24 + n) in Hb by lia.
  rewrite !Z.pow_add_r in Hb by lia.
  assert (Hpos : 0 < 2 ^ n) by (apply Z.pow_pos_nonneg; lia).
  split.
  - apply Z.div_le_lower_bound; lia.
  - apply Z.div_lt_upper_bound; lia.
Qed.

Lemma shr_record_of_loc_m (mm : Z) (l : SpecFloat.location) :
  shr_m (shr_record_of_loc mm l) = mm.
Proof. destruct l as [|[| |]]; reflexivity. Qed.

(** Rounding a mantissa of 24 bits or more gives a normal number: a
    mantissa of exactly 24 bits, the exponent raised by the bits shifted out
    and by one more when the rounding carries. *)
Lemma binary_round_aux_normal (p : positive) (e : Z) (lx : SpecFloat.location) :
  24 <= Z.pos (digits2_pos p) -> -149 <= e -> e + Z.pos (digits2_pos p) <= 127 ->
  exists mant e',
    binary_round_aux float_prec float_emax false (Z.pos p) e lx
    = S754_finite false mant e'
    /\ Z.pos (digits2_pos mant) = 24
    /\ e + Z.pos (digits2_pos p) - 24 <= e' <= e + Z.pos (digits2_pos p) - 23.
Proof.
  intros Hd He Hmax.
  set (d := Z.pos (digits2_pos p)) in *.
  unfold binary_round_aux.
  unfold shr_fexp at 1. cbn [Zdigits2]. fold d.
  rewrite fexp_normal by lia.
  destruct (shr_m_spec (shr_record_of_loc (Z.pos p) lx)
              e (d + e - 24 - e)
              ltac:(rewrite shr_record_of_loc_m; lia) ltac:(lia)) as [Hm He'].
  rewrite shr_record_of_loc_m in Hm.
  destruct (shr _ e (d + e - 24 - e)) as [mrs' e'].
  cbn [fst snd shr_m] in Hm, He'.
  pose proof (shifted_mantissa_bounds p (d + e - 24 - e) ltac:(lia)
                ltac:(fold d; lia)) as Hq.
  rewrite <- Hm in Hq.
  pose proof (round_nearest_even_bounds (shr_m mrs') (loc_of_shr_record mrs'))
    as Hr.
  set (q' := round_nearest_even (shr_m mrs') (loc_of_shr_record mrs')) in *.
  change (2 ^ 23) with 8388608 in Hq. change (2 ^ 24) with 16777216 in Hq.
  destruct q' as [|mp|mp] eqn:Eq'; [lia| |lia].
  destruct (Z.eq_dec (Z.pos mp) 16777216) as [E|E].
  - injection E as ->.
    unfold shr_fexp. cbn [Zdigits2 shr_record_of_loc].
    change (Z.pos (digits2_pos 16777216)) with 25.
    rewrite fexp_normal by lia.
    replace (25 + e' - 24 - e') with 1 by lia.
    cbn [shr SpecFloat.iter_pos shr_1 shr_m].
    replace (e' + 1 <=? float_emax - float_prec) with true
      by (unfold float_emax, float_prec; lia).
    exists 8388608%positive, (e' + 1). split; [reflexivity|].
    split; [reflexivity | lia].
  - assert (Hdm : Z.pos (digits2_pos mp) = 24).
    { apply digits2_pos_unique; [|lia].
      change (2 ^ (24 - 1)) with 8388608. change (2 ^ 24) with 16777216. lia. }
    unfold shr_fexp. cbn [Zdigits2 shr_record_of_loc]. rewrite Hdm.
    rewrite fexp_normal by lia.
    replace (24 + e' - 24 - e') with 0 by lia.
    cbn [shr shr_m].
    replace (e' <=? float_emax - float_prec) with true
      by (unfold float_emax, float_prec; lia).
    exists mp, e'. split; [reflexivity|]. split; [exact Hdm | lia].
Qed.

(** A mantissa of exactly 24 bits is kept as it is. *)
Lemma binary_round_aux_exact (mant : positive) (e : Z) :
  Z.pos (digits2_pos mant) = 24 -> -149 <= e <= 104 ->
  binary_round_aux float_prec float_emax false (Z.pos mant) e loc_Exact
  = S754_finite false mant e.
Proof.
  intros Hd He. unfold binary_round_aux, shr_fexp.
  cbn [Zdigits2 shr_record_of_loc]. rewrite Hd.
  rewrite fexp_normal by lia.
  replace (24 + e - 24 - e) with 0 by lia.
  cbn [shr shr_m loc_of_shr_record round_nearest_even Zdigits2
       shr_record_of_loc].
  rewrite Hd. rewrite fexp_normal by lia.
  replace (24 + e - 24 - e) with 0 by lia.
  cbn [shr shr_m].
  replace (e <=? float_emax - float_prec) with true
    by (unfold float_emax, float_prec; lia).
  reflexivity.
Qed.

(** Shifting left by [k] adds [k] bits and multiplies by [2^k]. *)
Lemma digits2_pos_iter_xO (p k : positive) :
  Z.pos (digits2_pos (Pos.iter xO p k)) = Z.pos (digits2_pos p) + Z.pos k.
Proof.
  induction k as [|k IH] using Pos.peano_ind.
  - cbn [Pos.iter digits2_pos]. lia.
  - rewrite Pos.iter_succ. cbn [digits2_pos]. lia.
Qed.

Lemma pos_iter_xO (p k : positive) :
  Z.pos (Pos.iter xO p k) = Z.pos p * 2 ^ Z.pos k.
Proof.
  induction k as [|k IH] using Pos.peano_ind.
  - cbn [Pos.iter]. rewrite Pos2Z.inj_xO. change (2 ^ 1) with 2. lia.
  - rewrite Pos.iter_succ, Pos2Z.inj_xO, IH, Pos2Z.inj_succ, Z.pow_succ_r by lia.
    lia.
Qed.

(** The conversion of a positive [size_t] gives a normal number. *)
Lemma float_of_Z_normal (x : Z) :
  1 <= x < 2 ^ 64 ->
  exists mant e,
    float_of_Z x = S754_finite false mant e
    /\ Z.pos (digits2_pos mant) = 24
    /\ Z.log2 x - 23 <= e <= Z.log2 x - 22.
Proof.
  intros Hx. destruct x as [|p|p]; [lia| |lia].
  assert (Hd : 1 <= Z.pos (digits2_pos p) <= 64).
  { split; [lia|]. rewrite digits2_pos_log2.
    assert (Z.log2 (Z.pos p) < 64) by (apply Z.log2_lt_pow2; lia). lia. }
  rewrite <- (Z.add_simpl_r (Z.log2 (Z.pos p)) 1), <- digits2_pos_log2.
  set (d := Z.pos (digits2_pos p)) in *.
  unfold float_of_Z. cbn [binary_normalize]. unfold binary_round.
  fold d. rewrite fexp_normal by lia.
  unfold shl_align.
  destruct (d + 0 - 24 - 0) as [|k|k] eqn:Ek.
  - destruct (binary_round_aux_normal p 0 loc_Exact ltac:(fold d; lia) ltac:(lia)
                ltac:(fold d; lia)) as (mant & e' & Hr & Hm & He).
    fold d in He. exists mant, e'. split; [exact Hr|]. split; [exact Hm | lia].
  - destruct (binary_round_aux_normal p 0 loc_Exact ltac:(fold d; lia) ltac:(lia)
                ltac:(fold d; lia)) as (mant & e' & Hr & Hm & He).
    fold d in He. exists mant, e'. split; [exact Hr|]. split; [exact Hm | lia].
  - pose proof (digits2_pos_iter_xO p k) as Hk. fold d in Hk.
    destruct (binary_round_aux_normal (Pos.iter xO p k) (d + 0 - 24) loc_Exact
                ltac:(lia) ltac:(lia) ltac:(lia)) as (mant & e' & Hr & Hm & He).
    exists mant, e'. split; [exact Hr|]. split; [exact Hm | lia].
Qed.

(** A number below 2^24 is converted exactly. *)
Lemma float_of_Z_exact (x : Z) :
  1 <= x < 2 ^ 24 ->
  exists mant e,
    float_of_Z x = S754_finite false mant e
    /\ Z.pos (digits2_pos mant) = 24
    /\ e = Z.log2 x - 23
    /\ Z.pos mant = x * 2 ^ (- e).
Proof.
  intros Hx. destruct x as [|p|p]; [lia| |lia].
  assert (Hd : 1 <= Z.pos (digits2_pos p) <= 24).
  { split; [lia|]. rewrite digits2_pos_log2.
    assert (Z.log2 (Z.pos p) < 24) by (apply Z.log2_lt_pow2; lia). lia. }
  rewrite <- (Z.add_simpl_r (Z.log2 (Z.pos p)) 1), <- digits2_pos_log2.
  set (d := Z.pos (digits2_pos p)) in *.
  unfold float_of_Z. cbn [binary_normalize]. unfold binary_round.
  fold d. rewrite fexp_normal by lia.
  unfold shl_align.
  destruct (d + 0 - 24 - 0) as [|k|k] eqn:Ek; [|lia|].
  - rewrite binary_round_aux_exact by (fold d; lia).
    exists p, 0. split; [reflexivity|]. split; [fold d; lia|].
    split; [lia|]. change (2 ^ (- 0)) with 1. lia.
  - pose proof (digits2_pos_iter_xO p k) as Hk. fold d in Hk.
    rewrite binary_round_aux_exact by lia.
    exists (Pos.iter xO p k), (d + 0 - 24). split; [reflexivity|].
    split; [lia|]. split; [lia|].
    rewrite pos_iter_xO. f_equal. f_equal. lia.
Qed.

(** [Z.div_eucl] is the pair of the quotient and the remainder. *)
Lemma div_eucl_div (a b : Z) : Z.div_eucl a b = (a / b, a mod b).
Proof.
  unfold Z.div, Z.modulo. destruct (Z.div_eucl a b). reflexivity.
Qed.

(** The quotient of two normal numbers is a normal number, whose exponent
    is bounded from below. *)
Lemma float_div_normal (mant ms : positive) (e es : Z) :
  Z.pos (digits2_pos mant) = 24 -> Z.pos (digits2_pos ms) = 24 ->
  -100 <= e - es <= 100 ->
  exists mant' e',
    float_div (S754_finite false mant e) (S754_finite false ms es)
    = S754_finite false mant' e'
    /\ Z.pos (digits2_pos mant') = 24
    /\ e - es - 24 <= e'
    /\ (Z.pos ms <= Z.pos mant -> e - es - 23 <= e').
Proof.
  intros Hd Hds He.
  pose proof (digits2_pos_bounds mant) as Hb. rewrite Hd in Hb.
  pose proof (digits2_pos_bounds ms) as Hbs. rewrite Hds in Hbs.
  change (2 ^ (24 - 1)) with 8388608 in Hb, Hbs.
  change (2 ^ 24) with 16777216 in Hb, Hbs.
  unfold float_div. cbn [SFdiv xorb]. unfold SFdiv_core_binary.
  cbn [Zdigits2]. rewrite Hd, Hds.
  rewrite fexp_normal by lia.
  rewrite Z.min_l by lia.
  replace (e - es - (24 + e - (24 + es) - 24)) with 24 by lia.
  rewrite Z.shiftl_mul_pow2 by lia.
  rewrite div_eucl_div.
  change (2 ^ 24) with 16777216.
  set (q := Z.pos mant * 16777216 / Z.pos ms).
  assert (Hq : 8388608 <= q < 33554432).
  { subst q. split.
    - apply Z.div_le_lower_bound; lia.
    - apply Z.div_lt_upper_bound; lia. }
  assert (Hq' : Z.pos ms <= Z.pos mant -> 16777216 <= q).
  { intros Hle. subst q. apply Z.div_le_lower_bound; lia. }
  destruct q as [|qp|qp] eqn:Eq; [lia| |lia].
  assert (Hdq : 24 <= Z.pos (digits2_pos qp) <= 25
                /\ (16777216 <= Z.pos qp -> Z.pos (digits2_pos qp) = 25)).
  { destruct (Z.lt_ge_cases (Z.pos qp) 16777216) as [Hlt|Hge].
    - rewrite (digits2_pos_unique qp 24); [lia| |lia].
      change (2 ^ (24 - 1)) with 8388608. change (2 ^ 24) with 16777216. lia.
    - rewrite (digits2_pos_unique qp 25); [lia| |lia].
      change (2 ^ (25 - 1)) with 16777216. change (2 ^ 25) with 33554432. lia. }
  destruct Hdq as [Hdq Hdq'].
  destruct (binary_round_aux_normal qp (24 + e - (24 + es) - 24)
              (new_location (Z.pos ms) (Z.pos mant * 16777216 mod Z.pos ms))
              ltac:(lia) ltac:(lia) ltac:(lia))
    as (mant' & e' & Hr & Hm & He').
  exists mant', e'. split; [exact Hr|]. split; [exact Hm|].
  split; [lia|]. intros Hle. specialize (Hdq' (Hq' Hle)). lia.
Qed.

(** The comparison of two positive finite numbers. *)
Lemma SFltb_finite (m1 m2 : positive) (e1 e2 : Z) :
  SFltb (S754_finite false m1 e1) (S754_finite false m2 e2)
  = match e1 ?= e2 with
    | Lt => true
    | Gt => false
    | Eq => match (m1 ?= m2)%positive with Lt => true | _ => false end
    end.
Proof.
  unfold SFltb, SFcompare. destruct (e1 ?= e2); reflexivity.
Qed.

(** A normal number of exponent -23 or more is not below 1.0. *)
Lemma not_below_one (mant : positive) (e : Z) :
  Z.pos (digits2_pos mant) = 24 -> -23 <= e ->
  SFltb (S754_finite false mant e) (float_of_Z 1) = false.
Proof.
  intros Hd He.
  pose proof (digits2_pos_bounds mant) as Hb. rewrite Hd in Hb.
  change (2 ^ (24 - 1)) with 8388608 in Hb. destruct Hb as [Hb _].
  change (float_of_Z 1) with (S754_finite false 8388608 (-23)).
  rewrite SFltb_finite.
  destruct (Z.compare_spec e (-23)) as [Ec|Ec|Ec]; [|lia|reflexivity].
  destruct (Pos.compare_spec mant 8388608) as [Em|Em|Em];
    [reflexivity| |reflexivity].
  apply Pos2Z.pos_lt_pos in Em. lia.
Qed.

(** At or above the size the quotient is not below 1. *)
Lemma bounds_check_above (x size : Z) :
  1 <= size < 2 ^ 24 -> size <= x < 2 ^ 64 -> bounds_check x size = false.
Proof.
  intros Hs Hx.
  destruct (float_of_Z_exact size Hs) as (ms & es & Hfs & Hds & Hes & Hms).
  assert (Hlog : 0 <= Z.log2 size <= Z.log2 x).
  { split; [apply Z.log2_nonneg | apply Z.log2_le_mono; lia]. }
  assert (Hlogs : Z.log2 size < 24) by (apply Z.log2_lt_pow2; lia).
  assert (Hlogx : Z.log2 x < 64) by (apply Z.log2_lt_pow2; lia).
  unfold bounds_check. rewrite Hfs.
  destruct (Z.lt_ge_cases x (2 ^ 24)) as [Hsmall|Hlarge].
  - destruct (float_of_Z_exact x ltac:(lia)) as (mx & ex & Hfx & Hdx & Hex & Hmx).
    rewrite Hfx.
    destruct (float_div_normal mx ms ex es Hdx Hds ltac:(lia))
      as (mant' & e' & Hq & Hm' & He' & He'').
    rewrite Hq. apply not_below_one; [exact Hm'|].
    destruct (Z.eq_dec (Z.log2 x) (Z.log2 size)) as [E|E]; [|lia].
    assert (Hee : ex = es) by lia. subst ex. rewrite Hee in *.
    assert (Hle : Z.pos ms <= Z.pos mx).
    { rewrite Hms, Hmx. apply Z.mul_le_mono_nonneg_r; [|lia].
      apply Z.pow_nonneg. lia. }
    specialize (He'' Hle). lia.
  - destruct (float_of_Z_normal x ltac:(lia)) as (mx & ex & Hfx & Hdx & Hex).
    rewrite Hfx.
    assert (Hlx : 24 <= Z.log2 x) by (apply Z.log2_le_pow2; lia).
    destruct (float_div_normal mx ms ex es Hdx Hds ltac:(lia))
      as (mant' & e' & Hq & Hm' & He' & _).
    rewrite Hq. apply not_below_one; [exact Hm' | lia].
Qed.

(** A division by [0.0] gives an infinity or a NaN, never a number below 1. *)
Lemma bounds_check_size_zero (x : Z) :
  0 <= x < 2 ^ 64 -> bounds_check x 0 = false.
Proof.
  intros Hx. unfold bounds_check.
  change (float_of_Z 0) with (S754_zero false).
  destruct (Z.eq_dec x 0) as [->|Hne]; [reflexivity|].
  destruct (float_of_Z_normal x ltac:(lia)) as (mx & ex & Hfx & _).
  rewrite Hfx. reflexivity.
Qed.

(** Below a size of at most 160, the length of [array1], the guard passes:
    checked on each pair. *)
Lemma bounds_check_below (x size : Z) :
  0 <= x < size -> size <= 160 -> bounds_check x size = true.
Proof.
  intros Hx Hs.
  assert (Hall : forallb (fun s => forallb (fun x => bounds_check x s) (seqZ 0 s))
                         (seqZ 0 161) = true) by (vm_compute; reflexivity).
  rewrite forallb_forall in Hall.
  specialize (Hall size). cbv beta in Hall.
  rewrite forallb_forall in Hall.
  apply Hall.
  - apply list_elem_of_In, elem_of_seqZ. lia.
  - apply list_elem_of_In, elem_of_seqZ. lia.
Qed.

(** The guard, for every size that fits [array1] and every [size_t] [x]. *)
Lemma bounds_check_spec (x size : Z) :
  0 <= size <= 160 -> 0 <= x < 2 ^ 64 ->
  bounds_check x size = (x <? size).
Proof.
  intros Hs Hx. destruct (Z.ltb_spec x size) as [Hlt|Hge].
  - apply bounds_check_below; lia.
  - destruct (Z.eq_dec size 0) as [->|Hne].
    + apply bounds_check_size_zero, Hx.
    + apply bounds_check_above; [|lia].
      change (2 ^ 24) with 16777216. lia.
Qed.

(** Above 2^24 the conversions round, and the guard can fail inside the
    bound: 2^24 and 2^24 + 1 convert to the same number. *)
Lemma bounds_check_rounds :
  bounds_check 16777216 16777217 = false.
Proof. vm_compute. reflexivity. Qed.

End FloatGuard.

(** ** The victim *)

Section Victim.

Lemma load_byte (a : list Z) (i : Z) :
  Forall (fun b => 0 <= b < 256) a -> 0 <= load a i < 256.
Proof.
  intros Hall. unfold load.
  destruct (a !! Z.to_nat i) as [b|] eqn:E; cbn [default]; [|lia].
  apply (Forall_lookup_1 _ _ _ _ Hall E).
Qed.

Lemma victim_function_taken (g : globals) (x : Z) :
  bounds_check x (array1_size g) = true ->
  array_accesses (snd (victim_function g x))
  = [Loc_array1 x; Loc_array2 (load (array1 g) x * PAGESIZE)].
Proof. intros Hb. unfold victim_function. rewrite Hb. reflexivity. Qed.

Lemma victim_function_not_taken (g : globals) (x : Z) :
  bounds_check x (array1_size g) = false ->
  victim_function g x = (g, victim_prologue).
Proof. intros Hb. unfold victim_function. rewrite Hb. reflexivity. Qed.

End Victim.

(** C1. Architecturally, with [array1_size] within the 160 elements of
    [array1] (it is 16 in the source), the bounds check of
    [victim_function] passes exactly when [x < array1_size].  So
    for every [size_t] [x] the elements of [array1] that a call reads lie in
    [0, array1_size) and the elements of [array2] in the array; a call with
    [x < array1_size] touches exactly [array1[x]] and the one slot
    [array2[array1[x] * PAGESIZE]], and a call with [x >= array1_size]
    touches no array element and changes no global. *)
Theorem victim_function_in_bounds (g : globals) (x : Z) :
  length (array1 g) = 160%nat ->
  0 <= array1_size g <= Z.of_nat (length (array1 g)) ->
  Forall (fun b => 0 <= b < 256) (array1 g) ->
  in_size_t x ->
  (bounds_check x (array1_size g) = true <-> x < array1_size g)
  /\ (forall i, Loc_array1 i ∈ array_accesses (snd (victim_function g x)) ->
        0 <= i < array1_size g)
  /\ (forall i, Loc_array2 i ∈ array_accesses (snd (victim_function g x)) ->
        0 <= i < 256 * PAGESIZE)
  /\ (x < array1_size g ->
      array_accesses (snd (victim_function g x))
      = [Loc_array1 x; Loc_array2 (load (array1 g) x * PAGESIZE)])
  /\ (array1_size g <= x ->
      array_accesses (snd (victim_function g x)) = []
      /\ fst (victim_function g x) = g).
Proof.
  intros Hlen Hsize Hbytes Hx. unfold in_size_t, SIZE_BITS in Hx.
  rewrite Hlen in Hsize.
  pose proof (bounds_check_spec x (array1_size g) ltac:(lia) Hx) as Hcheck.
  assert (Hiff : bounds_check x (array1_size g) = true <-> x < array1_size g).
  { rewrite Hcheck. apply Z.ltb_lt. }
  pose proof (load_byte (array1 g) x Hbytes) as Hbyte.
  split; [exact Hiff|].
  destruct (bounds_check x (array1_size g)) eqn:Hb.
  - assert (Hlt : x < array1_size g) by (apply Hiff; reflexivity).
    rewrite (victim_function_taken g x Hb).
    split; [|split; [|split]].
    + intros i Hi. apply elem_of_cons in Hi as [Hi|Hi]; [|].
      * injection Hi as ->.
        assert (Hpass : (x <? array1_size g) = true) by congruence.
        apply Z.ltb_lt in Hpass. unfold in_size_t in Hx. lia.
      * apply list_elem_of_singleton in Hi. discriminate Hi.
    + intros i Hi. apply elem_of_cons in Hi as [Hi|Hi]; [discriminate Hi|].
      apply list_elem_of_singleton in Hi. injection Hi as ->.
      unfold PAGESIZE. lia.
    + intros _. reflexivity.
    + intros Hge. lia.
  - assert (Hge : ~ x < array1_size g) by (intros H; apply Hiff in H; discriminate H).
    rewrite (victim_function_not_taken g x Hb). cbn [fst snd].
    change (array_accesses victim_prologue) with (@nil location).
    split; [|split; [|split]].
    + intros i Hi. apply elem_of_nil in Hi. contradiction.
    + intros i Hi. apply elem_of_nil in Hi. contradiction.
    + intros Hlt. lia.
    + intros _. split; reflexivity.
Qed.

Lemma victim_function_in_bounds_witness :
  array_accesses (snd (victim_function initial_globals 3))
  = [Loc_array1 3; Loc_array2 (load (array1 initial_globals) 3 * PAGESIZE)]
  /\ array_accesses (snd (victim_function initial_globals 40)) = [].
Proof.
  assert (Hbytes : Forall (fun b => 0 <= b < 256) (array1 initial_globals)).
  { apply Forall_app. split.
    - repeat (apply Forall_cons_2; [lia|]). apply Forall_nil_2.
    - apply Forall_replicate. lia. }
  split.
  - destruct (victim_function_in_bounds initial_globals 3 eq_refl
                ltac:(vm_compute; split; discriminate) Hbytes
                ltac:(unfold in_size_t, SIZE_BITS; lia))
      as (_ & _ & _ & Hin & _).
    apply Hin. simpl. lia.
  - destruct (victim_function_in_bounds initial_globals 40 eq_refl
                ltac:(vm_compute; split; discriminate) Hbytes
                ltac:(unfold in_size_t, SIZE_BITS; lia))
      as (_ & _ & _ & _ & Hout).
    apply Hout. simpl. lia.
Defined.

(** ** The visit order *)

Section VisitOrder.

Lemma candidates_range (i : Z) : i ∈ candidates <-> 0 <= i < 256.
Proof. unfold candidates. rewrite elem_of_seqZ. lia. Qed.

(** A boolean property checked on the 256 indices holds of each. *)
Lemma candidates_check (P : Z -> bool) :
  forallb P candidates = true -> forall i, 0 <= i < 256 -> P i = true.
Proof.
  intros Hall i Hi. rewrite forallb_forall in Hall.
  apply Hall, list_elem_of_In, candidates_range, Hi.
Qed.

Lemma mix_range (i : Z) : 0 <= i < 256 -> 0 <= mix i < 256.
Proof.
  intros Hi.
  pose proof (candidates_check
                (fun i => (0 <=? mix i) && (mix i <? 256))
                ltac:(vm_compute; reflexivity) i Hi) as H.
  cbv beta in H. apply andb_true_iff in H. lia.
Qed.

Lemma unmix_range (c : Z) : 0 <= c < 256 -> 0 <= unmix c < 256.
Proof.
  intros Hc.
  pose proof (candidates_check
                (fun c => (0 <=? unmix c) && (unmix c <? 256))
                ltac:(vm_compute; reflexivity) c Hc) as H.
  cbv beta in H. apply andb_true_iff in H. lia.
Qed.

Lemma unmix_mix (i : Z) : 0 <= i < 256 -> unmix (mix i) = i.
Proof.
  intros Hi.
  pose proof (candidates_check (fun i => unmix (mix i) =? i)
                ltac:(vm_compute; reflexivity) i Hi) as H.
  cbv beta in H. lia.
Qed.

Lemma mix_unmix (c : Z) : 0 <= c < 256 -> mix (unmix c) = c.
Proof.
  intros Hc.
  pose proof (candidates_check (fun c => mix (unmix c) =? c)
                ltac:(vm_compute; reflexivity) c Hc) as H.
  cbv beta in H. lia.
Qed.

Lemma mix_inj (i i' : Z) :
  0 <= i < 256 -> 0 <= i' < 256 -> mix i = mix i' -> i = i'.
Proof.
  intros Hi Hi' Heq.
  rewrite <- (unmix_mix i Hi), <- (unmix_mix i' Hi'), Heq. reflexivity.
Qed.

End VisitOrder.

(** C9. The visit order [i -> (i * 167 + 13) mod 256] is a bijection on
    0..255: it stays in the range, it is injective and it reaches every one
    of the 256 slots. *)
Theorem mix_bijection :
  (forall i, 0 <= i < 256 -> mix i = (i * 167 + 13) mod 256 /\ 0 <= mix i < 256)
  /\ (forall i i', 0 <= i < 256 -> 0 <= i' < 256 -> mix i = mix i' -> i = i')
  /\ (forall c, 0 <= c < 256 -> exists i, 0 <= i < 256 /\ mix i = c).
Proof.
  split; [|split].
  - intros i Hi. split; [|apply mix_range, Hi].
    unfold mix. apply (Z.land_ones _ 8). lia.
  - apply mix_inj.
  - intros c Hc. exists (unmix c). split.
    + apply unmix_range, Hc.
    + apply mix_unmix, Hc.
Qed.

Lemma mix_bijection_witness :
  (mix 255 = (255 * 167 + 13) mod 256 /\ 0 <= mix 255 < 256)
  /\ (mix 7 = mix 7 -> 7 = 7)
  /\ (exists i, 0 <= i < 256 /\ mix i = 0).
Proof.
  destruct mix_bijection as (Hrange & Hinj & Hsurj).
  split; [|split].
  - apply Hrange. lia.
  - apply Hinj; lia.
  - apply Hsurj. lia.
Defined.

(** ** The first-place / second-place scan *)

(** C6. On the score table [5; 5; 0; ...; 0] the scan ends with first place
    [j = 1] and second place [k = 0]. *)
Theorem locate_best_tie :
  locate_best ([5; 5] ++ replicate 254 0) = (1, 0).
Proof. vm_compute. reflexivity. Qed.

(** ** The training loop *)

Section Training.

Lemma victim_function_no_call (g : globals) (x : Z) :
  victim_calls (snd (victim_function g x)) = [].
Proof.
  unfold victim_function. destruct (bounds_check x (array1_size g)); reflexivity.
Qed.

Lemma victim_calls_app (tr tr' : list event) :
  victim_calls (tr ++ tr') = victim_calls tr ++ victim_calls tr'.
Proof. unfold victim_calls. apply omap_app. Qed.

Lemma train_steps_calls (training_x malicious_x : Z) (l : list Z) :
  forall acc,
    victim_calls (snd (fold_left (train_step training_x malicious_x) l acc))
    = victim_calls (snd acc)
      ++ map (fun i => select_offset i training_x malicious_x) l.
Proof.
  induction l as [|i l IH]; intros acc; simpl.
  - symmetry. apply app_nil_r.
  - rewrite IH. unfold train_step. cbn [snd].
    rewrite victim_calls_app, <- app_assoc. f_equal.
    change (victim_calls (Ev_mfence :: Ev_call_victim ?x :: ?tr))
      with (x :: victim_calls tr).
    rewrite victim_function_no_call. reflexivity.
Qed.

Lemma length_countdown (n : Z) : length (countdown n) = Z.to_nat (n + 1).
Proof. unfold countdown. rewrite length_reverse. apply length_seqZ. Qed.

End Training.

(** C4, as the code has it.  The training loop [for (i = loops; i >= 0; i--)]
    calls [victim_function] once for each of [i = loops, ..., 0]: that is
    [loops + 1] calls, not [loops], with the offset that the selection
    computes for [i]. *)
Theorem train_and_attack_calls (g : globals) (loops training_x malicious_x : Z) :
  victim_calls (snd (train_and_attack g loops training_x malicious_x))
  = map (fun i => select_offset i training_x malicious_x) (countdown loops)
  /\ length (victim_calls (snd (train_and_attack g loops training_x malicious_x)))
     = Z.to_nat (loops + 1).
Proof.
  assert (H : victim_calls (snd (train_and_attack g loops training_x malicious_x))
              = map (fun i => select_offset i training_x malicious_x)
                    (countdown loops)).
  { unfold train_and_attack. rewrite train_steps_calls. reflexivity. }
  split; [exact H|].
  rewrite H, length_map. apply length_countdown.
Qed.

(** With the default configuration a round calls the victim 31 times. *)
Lemma train_and_attack_default_calls :
  length (victim_calls
            (snd (train_and_attack (main_globals 100) (loops arg_init) 1 200)))
  = 31%nat.
Proof. vm_compute. reflexivity. Qed.

(** ** Calibration *)

Section Calibration.

Lemma to_size_t_range (z : Z) : 0 <= to_size_t z < 2 ^ 64.
Proof. unfold to_size_t, SIZE_BITS. apply Z.mod_pos_bound. lia. Qed.

Lemma accumulate_steps_range (sample : Z -> Z) (l : list Z) :
  forall total,
    0 <= total < 2 ^ 64 ->
    0 <= fold_left (fun total i => to_size_t (total + to_size_t (sample i)))
                   l total < 2 ^ 64.
Proof.
  induction l as [|i l IH]; intros total Ht; simpl.
  - exact Ht.
  - apply IH, to_size_t_range.
Qed.

Lemma accumulate_range (sample : Z -> Z) (count : Z) :
  0 <= accumulate sample count < 2 ^ 64.
Proof. unfold accumulate. apply accumulate_steps_range. lia. Qed.

Lemma calibration_count_cases (gem5_is_sim : Z) :
  calibration_count gem5_is_sim = 10 \/ calibration_count gem5_is_sim = 100000.
Proof. unfold calibration_count. destruct (gem5_is_sim =? 0); auto. Qed.

(** A mean of at least ten [size_t] samples is below a tenth of 2^64. *)
Lemma mean_range (sample : Z -> Z) (gem5_is_sim : Z) :
  let count := calibration_count gem5_is_sim in
  0 <= accumulate sample count / count < 1844674407370955162.
Proof.
  intros count. subst count.
  pose proof (accumulate_range sample (calibration_count gem5_is_sim)) as Ha.
  change (2 ^ 64) with 18446744073709551616 in Ha.
  destruct (calibration_count_cases gem5_is_sim) as [E | E]; rewrite E in *.
  - split; [apply Z.div_pos; lia|].
    apply Z.div_lt_upper_bound; lia.
  - split; [apply Z.div_pos; lia|].
    apply Z.div_lt_upper_bound; lia.
Qed.

(** The sum of line 208 does not wrap around. *)
Lemma flush_reload_threshold_exact (gem5_is_sim : Z)
    (reload_clock flush_clock : Z -> Z * Z) :
  flush_reload_threshold gem5_is_sim reload_clock flush_clock
  = (mean_flush_reload_time gem5_is_sim flush_clock
     + mean_reload_time gem5_is_sim reload_clock * 2) / 3.
Proof.
  unfold flush_reload_threshold.
  pose proof (mean_range (fun i => reload_t (reload_clock i)) gem5_is_sim) as Hr.
  pose proof (mean_range (fun i => flush_reload_t (flush_clock i)) gem5_is_sim) as Hf.
  cbv zeta in Hr, Hf.
  fold (mean_reload_time gem5_is_sim reload_clock) in Hr.
  fold (mean_flush_reload_time gem5_is_sim flush_clock) in Hf.
  unfold to_size_t, SIZE_BITS.
  change (2 ^ 64) with 18446744073709551616.
  rewrite (Z.mod_small (_ * 2)) by lia.
  rewrite Z.mod_small by lia. reflexivity.
Qed.

End Calibration.

(** C5, as the code has it.  When the mean reload latency is strictly below
    the mean flush+reload latency, the threshold is at least the hit mean and
    strictly below the miss mean; it is strictly above the hit mean exactly
    when the two means differ by 3 cycles or more. *)
Theorem flush_reload_threshold_between (gem5_is_sim : Z)
    (reload_clock flush_clock : Z -> Z * Z) :
  mean_reload_time gem5_is_sim reload_clock
  < mean_flush_reload_time gem5_is_sim flush_clock ->
  mean_reload_time gem5_is_sim reload_clock
  <= flush_reload_threshold gem5_is_sim reload_clock flush_clock
  < mean_flush_reload_time gem5_is_sim flush_clock
  /\ (mean_reload_time gem5_is_sim reload_clock
      < flush_reload_threshold gem5_is_sim reload_clock flush_clock
      <-> mean_reload_time gem5_is_sim reload_clock + 3
          <= mean_flush_reload_time gem5_is_sim flush_clock).
Proof.
  intros Hlt. rewrite flush_reload_threshold_exact.
  set (r := mean_reload_time gem5_is_sim reload_clock) in *.
  set (f := mean_flush_reload_time gem5_is_sim flush_clock) in *.
  pose proof (Z.div_mod (f + r * 2) 3 ltac:(lia)) as Hdm.
  pose proof (Z.mod_pos_bound (f + r * 2) 3 ltac:(lia)) as Hmod.
  lia.
Qed.

Lemma flush_reload_threshold_between_witness :
  mean_reload_time 1 (fun _ => (0, 60))
  <= flush_reload_threshold 1 (fun _ => (0, 60)) (fun _ => (0, 300))
  < mean_flush_reload_time 1 (fun _ => (0, 300)).
Proof.
  apply (flush_reload_threshold_between 1 (fun _ => (0, 60)) (fun _ => (0, 300))).
  vm_compute. reflexivity.
Defined.

(** C5, as stated, fails: ten reloads of 10 cycles and ten flush+reloads of
    11 cycles give the means 10 < 11, and the threshold (11 + 20) / 3 = 10 is
    not strictly above the hit mean. *)
Lemma flush_reload_threshold_not_strict :
  mean_reload_time 1 (fun _ => (0, 10))
  < mean_flush_reload_time 1 (fun _ => (0, 11))
  /\ ~ (mean_reload_time 1 (fun _ => (0, 10))
        < flush_reload_threshold 1 (fun _ => (0, 10)) (fun _ => (0, 11))
        < mean_flush_reload_time 1 (fun _ => (0, 11))).
Proof.
  split.
  - vm_compute. reflexivity.
  - intros [H _]. vm_compute in H. discriminate H.
Qed.

(** ** The measurement of the channel *)

Section Measurement.

Variables (g : globals) (m : machine) (tries training_x : Z).

Lemma load_alter_eq (f : Z -> Z) (l : list Z) (c : Z) :
  0 <= c < Z.of_nat (length l) ->
  load (alter f (Z.to_nat c) l) c = f (load l c).
Proof.
  intros Hc. unfold load. rewrite list_lookup_alter_eq.
  destruct (lookup_lt_is_Some_2 l (Z.to_nat c)) as [v Hv]; [lia|].
  rewrite Hv. reflexivity.
Qed.

Lemma load_alter_ne (f : Z -> Z) (l : list Z) (c c' : Z) :
  0 <= c -> 0 <= c' -> c <> c' ->
  load (alter f (Z.to_nat c) l) c' = load l c'.
Proof.
  intros Hc Hc' Hne. unfold load.
  rewrite list_lookup_alter_ne by lia. reflexivity.
Qed.

Lemma measure_step_length (acc : list Z * Z) (i : Z) :
  length (fst (measure_step g m tries training_x acc i)) = length (fst acc).
Proof.
  unfold measure_step.
  destruct (is_hit g (reload_time m tries i) (mix i) training_x); cbn [fst].
  - apply length_alter.
  - reflexivity.
Qed.

Lemma measure_step_other (acc : list Z * Z) (i c : Z) :
  0 <= i < 256 -> 0 <= c -> c <> mix i ->
  load (fst (measure_step g m tries training_x acc i)) c = load (fst acc) c.
Proof.
  intros Hi Hc Hne. pose proof (mix_range i Hi) as Hm.
  unfold measure_step.
  destruct (is_hit g (reload_time m tries i) (mix i) training_x); cbn [fst].
  - apply load_alter_ne; lia.
  - reflexivity.
Qed.

Lemma measure_step_visited (acc : list Z * Z) (i : Z) :
  0 <= i < 256 -> length (fst acc) = 256%nat ->
  load (fst (measure_step g m tries training_x acc i)) (mix i)
  = load (fst acc) (mix i)
    + (if is_hit g (reload_time m tries i) (mix i) training_x then 1 else 0).
Proof.
  intros Hi Hlen. pose proof (mix_range i Hi) as Hm.
  unfold measure_step.
  destruct (is_hit g (reload_time m tries i) (mix i) training_x); cbn [fst].
  - rewrite load_alter_eq by lia. lia.
  - lia.
Qed.

Lemma measure_steps_length (l : list Z) :
  forall acc,
    length (fst (fold_left (measure_step g m tries training_x) l acc))
    = length (fst acc).
Proof.
  induction l as [|i l IH]; intros acc; simpl; [reflexivity|].
  rewrite IH. apply measure_step_length.
Qed.

Lemma measure_steps_other (c : Z) (l : list Z) :
  0 <= c ->
  Forall (fun i => 0 <= i < 256 /\ mix i <> c) l ->
  forall acc,
    load (fst (fold_left (measure_step g m tries training_x) l acc)) c
    = load (fst acc) c.
Proof.
  intros Hc. induction l as [|i l IH]; intros Hall acc; simpl; [reflexivity|].
  inversion Hall as [|i0 l0 [Hi Hne] Hall']; subst.
  rewrite IH by exact Hall'.
  apply measure_step_other; [exact Hi | exact Hc | congruence].
Qed.

(** The 256 visits, split around visit [i]. *)
Lemma candidates_split (i : Z) :
  0 <= i < 256 ->
  candidates = seqZ 0 i ++ i :: seqZ (i + 1) (255 - i).
Proof.
  intros Hi. unfold candidates.
  replace 256 with (i + (256 - i)) by lia.
  rewrite seqZ_app by lia.
  rewrite (seqZ_cons (0 + i)) by lia.
  repeat f_equal; lia.
Qed.

Lemma measure_channel_visited (results : list Z) (junk : Z) (i : Z) :
  0 <= i < 256 -> length results = 256%nat ->
  load (fst (measure_channel g m tries training_x results junk)) (mix i)
  = load results (mix i)
    + (if is_hit g (reload_time m tries i) (mix i) training_x then 1 else 0).
Proof.
  intros Hi Hlen. pose proof (mix_range i Hi) as Hm.
  unfold measure_channel.
  rewrite (candidates_split i Hi), fold_left_app. simpl.
  rewrite measure_steps_other; [|lia|].
  - rewrite measure_step_visited; [|exact Hi|].
    + rewrite measure_steps_other; [reflexivity|lia|].
      apply Forall_seqZ. intros i' Hi'. split; [lia|].
      intros Heq. apply mix_inj in Heq; lia.
    + rewrite measure_steps_length. exact Hlen.
  - apply Forall_seqZ. intros i' Hi'. split; [lia|].
    intros Heq. apply mix_inj in Heq; lia.
Qed.

Lemma measure_channel_length (results : list Z) (junk : Z) :
  length (fst (measure_channel g m tries training_x results junk))
  = length results.
Proof. unfold measure_channel. apply measure_steps_length. Qed.

(** Each score moves by 0 or by 1 in a round. *)
Lemma measure_channel_step (results : list Z) (junk : Z) (c : Z) :
  0 <= c < 256 -> length results = 256%nat ->
  load results c
  <= load (fst (measure_channel g m tries training_x results junk)) c
  <= load results c + 1.
Proof.
  intros Hc Hlen.
  rewrite <- (mix_unmix c Hc).
  rewrite measure_channel_visited by (auto using unmix_range).
  destruct (is_hit _ _ _ _); lia.
Qed.

(** For a threshold that is not negative the comparison of line 148, made
    on [uint64_t], is the comparison of the two numbers. *)
Lemma is_hit_spec (time2 mix_i : Z) :
  0 <= CACHE_HIT_THRESHOLD g <= INT_MAX ->
  is_hit g time2 mix_i training_x = true
  <-> time2 <= CACHE_HIT_THRESHOLD g /\ mix_i <> load (array1 g) training_x.
Proof.
  unfold INT_MAX. intros Hthr. unfold is_hit, to_size_t, SIZE_BITS.
  rewrite Z.mod_small by lia.
  rewrite andb_true_iff, negb_true_iff. lia.
Qed.

(** A negative threshold is converted to a large [uint64_t]. *)
Lemma is_hit_negative_threshold (time2 mix_i : Z) :
  - 2 ^ 31 <= CACHE_HIT_THRESHOLD g < 0 ->
  0 <= time2 < 2 ^ 63 ->
  is_hit g time2 mix_i training_x
  = negb (mix_i =? load (array1 g) training_x).
Proof.
  intros Hthr Ht. unfold is_hit, to_size_t, SIZE_BITS.
  replace (CACHE_HIT_THRESHOLD g mod 2 ^ 64)
    with (CACHE_HIT_THRESHOLD g + 2 ^ 64).
  - replace (time2 <=? CACHE_HIT_THRESHOLD g + 2 ^ 64) with true by lia.
    reflexivity.
  - apply Z.mod_unique_pos with (q := -1); lia.
Qed.

End Measurement.



(** ** The round loop *)

Section Rounds.

Variables (m : machine) (loops malicious_x : Z).

Lemma clear_success_now_spec (st : engine) :
  clear_success_now st = true <-> convincing_majority st.
Proof.
  unfold clear_success_now, convincing_majority, clear_success.
  destruct (best st) as [[j k]|]; [|split; [discriminate | tauto]].
  rewrite orb_true_iff, andb_true_iff. lia.
Qed.

Lemma rounds_unbroken_S (r : nat) (n : nat) (st : engine) :
  rounds_unbroken m loops malicious_x (S r) (Z.of_nat (S n)) st
  = rounds_unbroken m loops malicious_x r (Z.of_nat n)
      (attempt m loops malicious_x (Z.of_nat (S n)) st).
Proof.
  cbn [rounds_unbroken]. f_equal. lia.
Qed.

Lemma rounds_run_attempt (tries : Z) (st : engine) :
  rounds_run (attempt m loops malicious_x tries st) = S (rounds_run st).
Proof. reflexivity. Qed.

(** The loop runs at least one round when the counter is positive, and
    never more rounds than the counter says. *)
Lemma attempts_rounds (n : nat) :
  forall st,
    (rounds_run (fst (attempts m loops malicious_x n st))
     <= rounds_run st + n)%nat
    /\ (n <> 0%nat ->
        (rounds_run st
         < rounds_run (fst (attempts m loops malicious_x n st)))%nat).
Proof.
  induction n as [|n IH]; intros st.
  - simpl. split; [lia | congruence].
  - cbn [attempts].
    destruct (clear_success_now _); cbn [fst].
    + rewrite rounds_run_attempt. lia.
    + destruct (IH (attempt m loops malicious_x (Z.of_nat (S n)) st))
        as [Hle Hlt].
      rewrite rounds_run_attempt in Hle, Hlt.
      split; [lia|]. intros _.
      destruct n as [|n']; [simpl; rewrite rounds_run_attempt; lia|].
      specialize (Hlt ltac:(congruence)). lia.
Qed.

End Rounds.

(** C7. Started with the counter at [n], the round loop runs some [R <= n]
    rounds and leaves the state of these [R] rounds; no round before the
    last satisfied the condition of line 171; the loop is left through the
    [break] exactly when the last round satisfies it; and a loop that is not
    left through the [break] has run all [n] rounds.  So the loop stops
    before the counter is exhausted only on that condition, and stops
    after the first round that satisfies it. *)
Theorem early_exit_rule (m : machine) (loops malicious_x : Z) (n : nat)
    (st : engine) :
  exists R : nat,
    (R <= n)%nat
    /\ fst (attempts m loops malicious_x n st)
       = rounds_unbroken m loops malicious_x R (Z.of_nat n) st
    /\ (forall r, (1 <= r < R)%nat ->
          ~ convincing_majority
              (rounds_unbroken m loops malicious_x r (Z.of_nat n) st))
    /\ (snd (attempts m loops malicious_x n st) = true
        <-> (1 <= R)%nat
            /\ convincing_majority
                 (rounds_unbroken m loops malicious_x R (Z.of_nat n) st))
    /\ (snd (attempts m loops malicious_x n st) = false -> R = n).
Proof.
  revert st. induction n as [|n IH]; intros st.
  - exists 0%nat. cbn [attempts rounds_unbroken fst snd].
    split; [lia|]. split; [reflexivity|]. split; [intros r Hr; lia|].
    split; [|reflexivity].
    split; [discriminate | intros [H _]; lia].
  - cbn [attempts].
    destruct (clear_success_now (attempt m loops malicious_x (Z.of_nat (S n)) st))
      eqn:Hcs.
    + exists 1%nat. rewrite rounds_unbroken_S. cbn [rounds_unbroken fst snd].
      apply clear_success_now_spec in Hcs.
      split; [lia|]. split; [reflexivity|]. split; [intros r Hr; lia|].
      split; [|discriminate].
      split; [intros _; split; [lia | exact Hcs] | reflexivity].
    + destruct (IH (attempt m loops malicious_x (Z.of_nat (S n)) st))
        as (R & Hle & Hfinal & Hbefore & Hbreak & Hall).
      exists (S R). rewrite rounds_unbroken_S.
      split; [lia|]. split; [exact Hfinal|]. split; [|split].
      * intros r Hr. destruct r as [|r]; [lia|].
        rewrite rounds_unbroken_S.
        destruct r as [|r].
        -- cbn [rounds_unbroken]. rewrite <- clear_success_now_spec, Hcs.
           discriminate.
        -- apply Hbefore. lia.
      * rewrite Hbreak. split; [intros [_ H]; split; [lia | exact H]|].
        intros [_ H]. split; [|exact H].
        destruct R as [|R]; [|lia].
        cbn [rounds_unbroken] in H.
        rewrite <- clear_success_now_spec, Hcs in H. discriminate.
      * intros H. f_equal. apply Hall, H.
Qed.

(** ** Invariants of the score table *)

Section Scores.

Variables (m : machine) (loops malicious_x : Z).

Lemma attempt_best (tries : Z) (st : engine) :
  best (attempt m loops malicious_x tries st)
  = Some (locate_best (results (attempt m loops malicious_x tries st))).
Proof. unfold attempt. cbn [best results]. reflexivity. Qed.

Lemma attempt_results (tries : Z) (st : engine) :
  results (attempt m loops malicious_x tries st)
  = fst (measure_channel
           (fst (train_and_attack (globs st) loops
                   (training_offset (globs st) tries) malicious_x))
           m tries (training_offset (globs st) tries)
           (results st) (junk st)).
Proof. unfold attempt. cbn [results]. reflexivity. Qed.

Lemma scores_bounded_start (g : globals) : scores_bounded (engine_start g).
Proof.
  split; [reflexivity|]. intros c Hc.
  unfold load. cbn [results engine_start rounds_run history length].
  rewrite lookup_replicate_2 by lia. simpl. lia.
Qed.

Lemma scores_bounded_attempt (tries : Z) (st : engine) :
  scores_bounded st -> scores_bounded (attempt m loops malicious_x tries st).
Proof.
  intros [Hlen Hb]. split.
  - rewrite attempt_results, measure_channel_length. exact Hlen.
  - intros c Hc. rewrite rounds_run_attempt, attempt_results.
    pose proof (measure_channel_step
                  (fst (train_and_attack (globs st) loops
                          (training_offset (globs st) tries) malicious_x))
                  m tries (training_offset (globs st) tries)
                  (results st) (junk st) c Hc Hlen) as Hstep.
    specialize (Hb c Hc). lia.
Qed.

Lemma scores_bounded_attempts (n : nat) :
  forall st, scores_bounded st ->
             scores_bounded (fst (attempts m loops malicious_x n st)).
Proof.
  induction n as [|n IH]; intros st Hst; [exact Hst|].
  cbn [attempts].
  destruct (clear_success_now _); cbn [fst].
  - apply scores_bounded_attempt, Hst.
  - apply IH, scores_bounded_attempt, Hst.
Qed.

(** The scan leaves a first place in 0..255. *)
Lemma scan_step_range (results : list Z) (jk : Z * Z) (i : Z) :
  0 <= i < 256 -> -1 <= fst jk < 256 -> -1 <= snd jk < 256 ->
  0 <= fst (scan_step results jk i) < 256
  /\ -1 <= snd (scan_step results jk i) < 256.
Proof.
  destruct jk as [j k]. cbn [fst snd]. intros Hi Hj Hk. unfold scan_step.
  destruct (j <? 0) eqn:Ej; [cbn [fst snd]; lia|].
  apply Z.ltb_ge in Ej.
  destruct (load results i >=? load results j); [cbn [fst snd]; lia|].
  destruct (if k <? 0 then true else load results i >=? load results k);
    cbn [fst snd]; lia.
Qed.

Lemma scan_steps_range (results : list Z) (l : list Z) :
  Forall (fun i => 0 <= i < 256) l ->
  forall jk,
    0 <= fst jk < 256 -> -1 <= snd jk < 256 ->
    0 <= fst (fold_left (scan_step results) l jk) < 256
    /\ -1 <= snd (fold_left (scan_step results) l jk) < 256.
Proof.
  induction l as [|i l IH]; intros Hall jk Hj Hk; simpl; [lia|].
  inversion Hall as [|i0 l0 Hi Hall']; subst.
  destruct (scan_step_range results jk i Hi ltac:(lia) Hk) as [Hj' Hk'].
  apply IH; assumption.
Qed.

Lemma locate_best_range (results : list Z) :
  0 <= fst (locate_best results) < 256
  /\ -1 <= snd (locate_best results) < 256.
Proof.
  unfold locate_best.
  change candidates with (0 :: seqZ 1 255). cbn [fold_left].
  apply scan_steps_range.
  - apply Forall_seqZ. lia.
  - cbn. lia.
  - cbn. lia.
Qed.

Lemma attempts_best (n : nat) :
  forall st, n <> 0%nat ->
    exists j k, best (fst (attempts m loops malicious_x n st)) = Some (j, k)
                /\ 0 <= j < 256.
Proof.
  induction n as [|n IH]; intros st Hn; [congruence|].
  cbn [attempts].
  destruct (clear_success_now _) eqn:E; cbn [fst].
  - rewrite attempt_best.
    destruct (locate_best _) as [j k] eqn:Ejk.
    exists j, k. split; [reflexivity|].
    pose proof (locate_best_range
                  (results (attempt m loops malicious_x (Z.of_nat (S n)) st)))
      as Hr.
    rewrite Ejk in Hr. apply Hr.
  - destruct n as [|n'].
    + cbn [attempts fst]. rewrite attempt_best.
      destruct (locate_best _) as [j k] eqn:Ejk.
      exists j, k. split; [reflexivity|].
      pose proof (locate_best_range
                    (results (attempt m loops malicious_x (Z.of_nat 1) st)))
        as Hr.
      rewrite Ejk in Hr. apply Hr.
    + apply IH. congruence.
Qed.

End Scores.

(** What the engine does return, for every configuration with
    [tries >= 1]: it runs between 1 and [tries] rounds, [*value] is the last
    first place [j], in 0..255, and [*score] is [results[j]] read after line
    176 has xored [junk] into [results[0]]: the accumulated hit count of [j]
    when [j] is not 0, and that count xor [junk] when [j] is 0. *)
Lemma engine_always_guesses (m : machine) (g : globals) (malicious_x : Z)
    (args : arguments) :
  1 <= tries args ->
  let final := fst (engine_loop m g malicious_x args) in
  exists j k,
    best final = Some (j, k)
    /\ 0 <= j < 256
    /\ (1 <= Z.of_nat (rounds_run final) <= tries args)
    /\ (forall c, 0 <= c < 256 ->
          0 <= load (results final) c <= Z.of_nat (rounds_run final))
    /\ spectre_pht_sa_ip_read m g malicious_x args
       = Some (j, if j =? 0 then Z.lxor (load (results final) 0) (junk final)
                  else load (results final) j).
Proof.
  intros Htries final.
  destruct (attempts_best m (loops args) malicious_x (Z.to_nat (tries args))
              (engine_start g) ltac:(lia)) as (j & k & Hbest & Hj).
  fold (engine_loop m g malicious_x args) in Hbest. fold final in Hbest.
  destruct (scores_bounded_attempts m (loops args) malicious_x
              (Z.to_nat (tries args)) (engine_start g)
              (scores_bounded_start g)) as [Hlen Hb].
  fold (engine_loop m g malicious_x args) in Hlen, Hb. fold final in Hlen, Hb.
  destruct (attempts_rounds m (loops args) malicious_x (Z.to_nat (tries args))
              (engine_start g)) as [Hle Hlt].
  fold (engine_loop m g malicious_x args) in Hle, Hlt. fold final in Hle, Hlt.
  specialize (Hlt ltac:(lia)).
  change (rounds_run (engine_start g)) with 0%nat in Hle, Hlt.
  exists j, k. split; [exact Hbest|]. split; [exact Hj|].
  split; [lia|]. split; [exact Hb|].
  unfold spectre_pht_sa_ip_read. fold final. unfold report. rewrite Hbest.
  f_equal. f_equal.
  - unfold to_uint8. apply Z.mod_small. lia.
  - destruct (j =? 0) eqn:Ej.
    + apply Z.eqb_eq in Ej. subst j.
      change 0%nat with (Z.to_nat 0).
      rewrite load_alter_eq by lia. reflexivity.
    + apply Z.eqb_neq in Ej.
      change 0%nat with (Z.to_nat 0).
      apply load_alter_ne; lia.
Qed.

(** C3 at a run that the code can make.  One round ([tries = 1]), the probe
    array as [main] fills it (every byte is 1), and a channel in which only
    candidate 0 reloads fast: the round counts one hit for candidate 0, the
    scan gives [j = 0], the loop stops, line 176 turns [results[0]] from 1
    into [1 ^ junk = 0], and the engine reports the value 0 with the score 0
    although the accumulated hit count of candidate 0 is 1. *)
Theorem score_of_candidate_zero :
  best (fst (engine_loop only_zero_hits (main_globals 100) 200 one_try))
  = Some (0, 255)
  /\ load (results (fst (engine_loop only_zero_hits (main_globals 100) 200
                           one_try))) 0 = 1
  /\ junk (fst (engine_loop only_zero_hits (main_globals 100) 200 one_try)) = 1
  /\ spectre_pht_sa_ip_read only_zero_hits (main_globals 100) 200 one_try
     = Some (0, 0).
Proof. vm_compute. repeat split. Qed.

(** C10. A round that ends with the 256 scores at zero gives first place
    255 and second place 254, satisfies the condition of line 171 as
    [0 >= 2 * 0], so the loop is left through the [break] after that round,
    and the engine reports the value 255 with the score 0. *)
Theorem no_hit_round_stops (m : machine) (loops malicious_x : Z) (n : nat)
    (st : engine) :
  results (attempt m loops malicious_x (Z.of_nat (S n)) st) = replicate 256 0 ->
  best (attempt m loops malicious_x (Z.of_nat (S n)) st) = Some (255, 254)
  /\ load (results (attempt m loops malicious_x (Z.of_nat (S n)) st)) 255
     >= 2 * load (results (attempt m loops malicious_x (Z.of_nat (S n)) st)) 254
  /\ attempts m loops malicious_x (S n) st
     = (attempt m loops malicious_x (Z.of_nat (S n)) st, true)
  /\ report (attempt m loops malicious_x (Z.of_nat (S n)) st) = Some (255, 0).
Proof.
  intros Hzero.
  assert (Hbest : best (attempt m loops malicious_x (Z.of_nat (S n)) st)
                  = Some (255, 254)).
  { rewrite attempt_best, Hzero. vm_compute. reflexivity. }
  split; [exact Hbest|]. split; [|split].
  - rewrite Hzero. vm_compute. discriminate.
  - cbn [attempts]. unfold clear_success_now. rewrite Hbest, Hzero.
    reflexivity.
  - unfold report. rewrite Hbest, Hzero. reflexivity.
Qed.

Lemma no_hit_round_stops_witness :
  attempts never_hits 30 200 999 (engine_start (main_globals 100))
  = (attempt never_hits 30 200 999 (engine_start (main_globals 100)), true)
  /\ report (attempt never_hits 30 200 999 (engine_start (main_globals 100)))
     = Some (255, 0).
Proof.
  destruct (no_hit_round_stops never_hits 30 200 998
              (engine_start (main_globals 100)))
    as (_ & _ & Hstop & Hreport).
  - vm_compute. reflexivity.
  - split; [exact Hstop | exact Hreport].
Defined.

(** With the default configuration and a channel that never hits, the
    engine stops after its first round on the guess 255 with score 0. *)
Lemma no_hit_default_run :
  spectre_pht_sa_ip_read never_hits (main_globals 100) 200 arg_init
  = Some (255, 0)
  /\ rounds_run (fst (engine_loop never_hits (main_globals 100) 200 arg_init))
     = 1%nat.
Proof. vm_compute. split; reflexivity. Qed.

(** * Further properties of the code *)

(** ** The scan as a selection of the two best candidates *)

Section Scan.

Variable results : list Z.

Lemma scan_step_top_two (n : Z) (jk : Z * Z) :
  1 <= n -> top_two results n jk ->
  top_two results (n + 1) (scan_step results jk n).
Proof.
  destruct jk as [j k]. intros Hn (Hj & Hmax & Hlast & Hk).
  unfold scan_step.
  destruct (j <? 0) eqn:Ej; [lia|].
  destruct (Z.geb_spec (load results n) (load results j)) as [Hge|Hlt].
  - cbn [top_two]. split; [lia|]. split; [|split].
    + intros i Hi. destruct (Z.eq_dec i n) as [->|Hne]; [lia|].
      specialize (Hmax i ltac:(lia)). lia.
    + intros i Hi. lia.
    + right. split; [lia|]. split; [lia|]. split.
      * intros i Hi Hne. apply Hmax. lia.
      * intros i Hi Hne. apply Hlast. lia.
  - assert (Hmax' : forall i, 0 <= i < n + 1 -> load results i <= load results j).
    { intros i Hi. destruct (Z.eq_dec i n) as [->|Hne]; [lia|].
      apply Hmax. lia. }
    assert (Hlast' : forall i, j < i < n + 1 -> load results i < load results j).
    { intros i Hi. destruct (Z.eq_dec i n) as [->|Hne]; [lia|].
      apply Hlast. lia. }
    destruct Hk as [[-> ->] | (Hk & Hkj & Hkmax & Hklast)].
    + cbn [Z.ltb Z.compare]. cbn [top_two].
      split; [lia|]. split; [exact Hmax'|]. split; [exact Hlast'|].
      right. split; [lia|]. split; [lia|]. split.
      * intros i Hi Hne. assert (i = 1) as -> by lia. lia.
      * intros i Hi Hne. lia.
    + destruct (k <? 0) eqn:Ek; [lia|].
      destruct (Z.geb_spec (load results n) (load results k)) as [Hge|Hlt'].
      * cbn [top_two].
        split; [lia|]. split; [exact Hmax'|]. split; [exact Hlast'|].
        right. split; [lia|]. split; [lia|]. split.
        -- intros i Hi Hne. destruct (Z.eq_dec i n) as [->|Hne']; [lia|].
           specialize (Hkmax i ltac:(lia) Hne). lia.
        -- intros i Hi Hne. lia.
      * cbn [top_two].
        split; [lia|]. split; [exact Hmax'|]. split; [exact Hlast'|].
        right. split; [lia|]. split; [lia|]. split.
        -- intros i Hi Hne. destruct (Z.eq_dec i n) as [->|Hne']; [lia|].
           apply Hkmax; lia.
        -- intros i Hi Hne. destruct (Z.eq_dec i n) as [->|Hne']; [lia|].
           apply Hklast; lia.
Qed.

Lemma scan_prefix_top_two (n : nat) :
  top_two results (Z.of_nat (S n))
          (fold_left (scan_step results) (seqZ 0 (Z.of_nat (S n))) (-1, -1)).
Proof.
  induction n as [|n IH].
  - change (fold_left (scan_step results) (seqZ 0 (Z.of_nat 1)) (-1, -1))
      with (0, -1).
    change (Z.of_nat 1) with 1. cbn [top_two].
    split; [lia|]. split; [|split].
    + intros i Hi. assert (i = 0) as -> by lia. lia.
    + intros i Hi. lia.
    + left. split; reflexivity.
  - rewrite (seqZ_S 0 (S n)), fold_left_app. cbn [fold_left].
    rewrite Z.add_0_l.
    replace (Z.of_nat (S (S n))) with (Z.of_nat (S n) + 1) by lia.
    apply scan_step_top_two; [lia | exact IH].
Qed.

End Scan.

(** X1. The scan is an exact selection of the two best candidates: the
    first place [j] holds the greatest of the 256 scores and is the last
    index that does; the second place [k] is another index, holds the
    greatest score among the indices other than [j], and is the last of
    these that does. *)
Theorem locate_best_top_two (results : list Z) :
  0 <= fst (locate_best results) < 256
  /\ 0 <= snd (locate_best results) < 256
  /\ snd (locate_best results) <> fst (locate_best results)
  /\ forall i, 0 <= i < 256 ->
       load results i <= load results (fst (locate_best results))
       /\ (fst (locate_best results) < i ->
           load results i < load results (fst (locate_best results)))
       /\ (i <> fst (locate_best results) ->
           load results i <= load results (snd (locate_best results))
           /\ (snd (locate_best results) < i ->
               load results i < load results (snd (locate_best results)))).
Proof.
  pose proof (scan_prefix_top_two results 255) as H.
  change (Z.of_nat 256) with 256 in H.
  fold candidates in H. fold (locate_best results) in H.
  destruct (locate_best results) as [j k]. cbn [fst snd].
  destruct H as (Hj & Hmax & Hlast & [[_ Hone] | (Hk & Hkj & Hkmax & Hklast)]);
    [lia|].
  split; [exact Hj|]. split; [exact Hk|]. split; [exact Hkj|].
  intros i Hi. split; [apply Hmax, Hi|]. split.
  - intros Hlt. apply Hlast. lia.
  - intros Hne. split; [apply Hkmax; assumption|].
    intros Hlt. apply Hklast; [lia | exact Hne].
Qed.

(** ** The schedule of the training loop *)

Section Schedule.

Lemma select_offset_cases (i training_x malicious_x : Z) :
  0 <= i -> in_size_t training_x -> in_size_t malicious_x ->
  select_offset i training_x malicious_x
  = if i mod 6 =? 0 then malicious_x else training_x.
Proof.
  intros Hi Ht Hm. unfold select_offset.
  rewrite select_mask_cases by exact Hi.
  destruct (i mod 6 =? 0).
  - rewrite Z.land_comm, Z.land_ones by lia.
    pose proof (lxor_in_size_t _ _ Hm Ht) as Hx.
    unfold in_size_t, SIZE_BITS in Hx.
    rewrite Z.mod_small by exact Hx. apply lxor_cancel_r.
  - rewrite Z.land_0_l. apply Z.lxor_0_r.
Qed.

Lemma countdown_lookup (loops n : Z) :
  0 <= n <= loops -> countdown loops !! Z.to_nat n = Some (loops - n).
Proof.
  intros Hn. unfold countdown.
  rewrite reverse_lookup by (rewrite length_seqZ; lia).
  rewrite length_seqZ, lookup_seqZ. split; lia.
Qed.

Lemma countdown_nonneg (loops : Z) : Forall (fun i => 0 <= i) (countdown loops).
Proof.
  unfold countdown. apply Forall_reverse, Forall_seqZ. lia.
Qed.

End Schedule.

(** X2. Counting the calls of a round from 0, call [n] of the training
    loop passes [malicious_x] to the victim exactly when [loops - n] is a
    multiple of 6, and [training_x] otherwise; so the last call of every
    round, [n = loops], is an attack call. *)
Theorem train_and_attack_schedule (g : globals)
    (loops training_x malicious_x n : Z) :
  in_size_t training_x -> in_size_t malicious_x ->
  0 <= n <= loops ->
  victim_calls (snd (train_and_attack g loops training_x malicious_x))
    !! Z.to_nat n
  = Some (if (loops - n) mod 6 =? 0 then malicious_x else training_x).
Proof.
  intros Ht Hm Hn. unfold train_and_attack.
  rewrite train_steps_calls. cbn [snd victim_calls omap list_omap app].
  rewrite list_lookup_fmap, countdown_lookup by exact Hn. cbn [fmap option_fmap option_map].
  f_equal. apply select_offset_cases; [lia | exact Ht | exact Hm].
Qed.

Lemma train_and_attack_schedule_witness :
  victim_calls (snd (train_and_attack initial_globals 30 7 200)) !! Z.to_nat 30
  = Some 200.
Proof.
  apply (train_and_attack_schedule initial_globals 30 7 200 30).
  - unfold in_size_t, SIZE_BITS. lia.
  - unfold in_size_t, SIZE_BITS. lia.
  - lia.
Defined.

(** ** What the engine leaves of the globals *)

Section Globals.

Lemma same_arrays_refl (g : globals) : same_arrays g g.
Proof. repeat split. Qed.

Lemma same_arrays_trans (g g' g'' : globals) :
  same_arrays g g' -> same_arrays g' g'' -> same_arrays g g''.
Proof.
  intros (H1 & H2 & H3 & H4) (H1' & H2' & H3' & H4').
  repeat split; congruence.
Qed.

(** A call of the victim changes [temp] at most, and only clears bits
    of it. *)
Lemma victim_function_globals (g : globals) (x : Z) :
  same_arrays g (fst (victim_function g x))
  /\ Z.land (temp (fst (victim_function g x))) (temp g)
     = temp (fst (victim_function g x)).
Proof.
  unfold victim_function. destruct (bounds_check x (array1_size g)); cbn [fst].
  - split; [repeat split|]. cbn [temp set_temp].
    rewrite (Z.land_comm (temp g)), <- Z.land_assoc, Z.land_diag. reflexivity.
  - split; [apply same_arrays_refl | apply Z.land_diag].
Qed.

Lemma land_subset_trans (a b c : Z) :
  Z.land a b = a -> Z.land b c = b -> Z.land a c = a.
Proof.
  intros Hab Hbc. rewrite <- Hab at 1.
  rewrite <- Z.land_assoc, Hbc. exact Hab.
Qed.

Lemma train_steps_globals (training_x malicious_x : Z) (l : list Z) :
  forall acc,
    same_arrays (fst acc)
                (fst (fold_left (train_step training_x malicious_x) l acc))
    /\ Z.land (temp (fst (fold_left (train_step training_x malicious_x) l acc)))
              (temp (fst acc))
       = temp (fst (fold_left (train_step training_x malicious_x) l acc)).
Proof.
  induction l as [|i l IH]; intros acc; cbn [fold_left].
  - split; [apply same_arrays_refl | apply Z.land_diag].
  - destruct (victim_function_globals (fst acc)
                (select_offset i training_x malicious_x)) as [Hs' Ht'].
    set (acc' := train_step training_x malicious_x acc i).
    assert (Hacc : fst acc' = fst (victim_function (fst acc)
                                     (select_offset i training_x malicious_x)))
      by reflexivity.
    destruct (IH acc') as [Hs Ht]. rewrite Hacc in Hs, Ht.
    split.
    + eapply same_arrays_trans; [exact Hs' | exact Hs].
    + eapply land_subset_trans; [exact Ht | exact Ht'].
Qed.

Lemma train_and_attack_globals (g : globals) (loops training_x malicious_x : Z) :
  same_arrays g (fst (train_and_attack g loops training_x malicious_x))
  /\ Z.land (temp (fst (train_and_attack g loops training_x malicious_x)))
            (temp g)
     = temp (fst (train_and_attack g loops training_x malicious_x)).
Proof. unfold train_and_attack. apply (train_steps_globals _ _ _ (g, [])). Qed.

Lemma attempt_globs (m : machine) (loops malicious_x tries : Z) (st : engine) :
  globs (attempt m loops malicious_x tries st)
  = fst (train_and_attack (globs st) loops
           (training_offset (globs st) tries) malicious_x).
Proof. unfold attempt. cbn [globs]. reflexivity. Qed.

Lemma attempts_globals (m : machine) (loops malicious_x : Z) (n : nat) :
  forall st,
    same_arrays (globs st) (globs (fst (attempts m loops malicious_x n st)))
    /\ Z.land (temp (globs (fst (attempts m loops malicious_x n st))))
              (temp (globs st))
       = temp (globs (fst (attempts m loops malicious_x n st))).
Proof.
  induction n as [|n IH]; intros st; cbn [attempts].
  - cbn [fst]. split; [apply same_arrays_refl | apply Z.land_diag].
  - pose proof (train_and_attack_globals (globs st) loops
                  (training_offset (globs st) (Z.of_nat (S n))) malicious_x)
      as [Hs Ht].
    rewrite <- attempt_globs with (m := m) in Hs, Ht.
    destruct (clear_success_now _); cbn [fst].
    + split; assumption.
    + destruct (IH (attempt m loops malicious_x (Z.of_nat (S n)) st))
        as [Hs' Ht'].
      split.
      * eapply same_arrays_trans; [exact Hs | exact Hs'].
      * eapply land_subset_trans; [exact Ht' | exact Ht].
Qed.

End Globals.

(** X3. A run of the engine changes no global but [temp]: the two
    arrays, the declared size and the threshold are as before; [temp] can
    only lose bits, and a [temp] that is 0 leaves the globals as they
    were. *)
Theorem engine_keeps_globals (m : machine) (g : globals) (malicious_x : Z)
    (args : arguments) :
  array1 (globs (fst (engine_loop m g malicious_x args))) = array1 g
  /\ array1_size (globs (fst (engine_loop m g malicious_x args))) = array1_size g
  /\ array2 (globs (fst (engine_loop m g malicious_x args))) = array2 g
  /\ CACHE_HIT_THRESHOLD (globs (fst (engine_loop m g malicious_x args)))
     = CACHE_HIT_THRESHOLD g
  /\ Z.land (temp (globs (fst (engine_loop m g malicious_x args)))) (temp g)
     = temp (globs (fst (engine_loop m g malicious_x args)))
  /\ (temp g = 0 -> globs (fst (engine_loop m g malicious_x args)) = g).
Proof.
  destruct (attempts_globals m (loops args) malicious_x (Z.to_nat (tries args))
              (engine_start g)) as [(H1 & H2 & H3 & H4) Ht].
  fold (engine_loop m g malicious_x args) in H1, H2, H3, H4, Ht.
  cbn [globs engine_start] in H1, H2, H3, H4, Ht.
  repeat (split; [assumption|]).
  intros H0. rewrite H0, Z.land_0_r in Ht.
  destruct (globs (fst (engine_loop m g malicious_x args))) as [a1 s1 a2 t1 c1].
  destruct g as [a1' s1' a2' t1' c1']. cbn in *. congruence.
Qed.

(** ** What the engine reads *)

Section Reads.

Variable g0 : globals.
Hypothesis Hsize : 1 <= array1_size g0 <= 160.
Hypothesis Hbytes : Forall (fun b => 0 <= b < 256) (array1 g0).

Lemma in_bounds_event_no_access (e : event) :
  array_access e = None -> in_bounds_event g0 e.
Proof. intros H. unfold in_bounds_event. rewrite H. exact I. Qed.

Lemma victim_events_in_bounds (g : globals) (x : Z) :
  same_arrays g0 g -> in_size_t x ->
  Forall (in_bounds_event g0) (snd (victim_function g x)).
Proof.
  intros (Ha1 & Hs & _ & _) Hx. unfold in_size_t, SIZE_BITS in Hx.
  unfold victim_function.
  pose proof (bounds_check_spec x (array1_size g) ltac:(lia) Hx) as Hcheck.
  assert (Hpro : Forall (in_bounds_event g0) victim_prologue).
  { unfold victim_prologue.
    repeat (apply Forall_cons_2; [exact I|]). apply Forall_nil_2. }
  destruct (bounds_check x (array1_size g)) eqn:Hb; cbn [snd]; [|exact Hpro].
  symmetry in Hcheck. apply Z.ltb_lt in Hcheck.
  pose proof (load_byte (array1 g) x ltac:(rewrite Ha1; exact Hbytes)) as Hbyte.
  apply Forall_app. split; [exact Hpro|].
  apply Forall_cons_2; [cbn; lia|].
  apply Forall_cons_2; [cbn; unfold PAGESIZE; lia|].
  repeat (apply Forall_cons_2; [exact I|]). apply Forall_nil_2.
Qed.

Lemma select_offset_in_size_t (i training_x malicious_x : Z) :
  0 <= i -> in_size_t training_x -> in_size_t malicious_x ->
  in_size_t (select_offset i training_x malicious_x).
Proof.
  intros Hi Ht Hm. rewrite select_offset_cases by assumption.
  destruct (i mod 6 =? 0); assumption.
Qed.

Lemma train_steps_in_bounds (training_x malicious_x : Z) (l : list Z) :
  in_size_t training_x -> in_size_t malicious_x ->
  Forall (fun i => 0 <= i) l ->
  forall acc,
    same_arrays g0 (fst acc) -> Forall (in_bounds_event g0) (snd acc) ->
    Forall (in_bounds_event g0)
           (snd (fold_left (train_step training_x malicious_x) l acc)).
Proof.
  intros Ht Hm. induction l as [|i l IH]; intros Hl acc Hs Htr;
    cbn [fold_left]; [exact Htr|].
  inversion Hl as [|i0 l0 Hi Hl']; subst.
  apply IH; [exact Hl'| |].
  - cbn [train_step fst].
    eapply same_arrays_trans; [exact Hs|]. apply victim_function_globals.
  - cbn [train_step snd]. apply Forall_app. split; [exact Htr|].
    apply Forall_cons_2; [exact I|]. apply Forall_cons_2; [exact I|].
    apply victim_events_in_bounds; [exact Hs|].
    apply select_offset_in_size_t; assumption.
Qed.

Lemma training_offset_range (g : globals) (tries : Z) :
  same_arrays g0 g ->
  0 <= training_offset g tries < array1_size g0.
Proof.
  intros (_ & Hs & _ & _). unfold training_offset, to_size_t, SIZE_BITS.
  rewrite Hs.
  pose proof (Z.mod_pos_bound (to_uint32 tries) (array1_size g0) ltac:(lia)).
  rewrite Z.mod_small; lia.
Qed.

Lemma evict_channel_in_bounds : Forall (in_bounds_event g0) evict_channel.
Proof.
  unfold evict_channel. apply Forall_flat_map, Forall_forall.
  intros i _. repeat (apply Forall_cons_2; [exact I|]). apply Forall_nil_2.
Qed.

Lemma measure_events_in_bounds (g : globals) (m : machine) (tries : Z) :
  same_arrays g0 g ->
  Forall (in_bounds_event g0)
         (measure_events g m tries (training_offset g0 tries)).
Proof.
  intros Hs. unfold measure_events. apply Forall_flat_map, Forall_seqZ.
  intros i Hi. pose proof (mix_range i ltac:(lia)) as Hm.
  pose proof (training_offset_range g0 tries (same_arrays_refl g0)) as Ht.
  apply Forall_cons_2; [cbn; unfold PAGESIZE; lia|].
  destruct (_ <=? _); [|apply Forall_nil_2].
  apply Forall_cons_2; [cbn; lia | apply Forall_nil_2].
Qed.

Lemma training_offset_same (g : globals) (tries : Z) :
  same_arrays g0 g -> training_offset g tries = training_offset g0 tries.
Proof. intros (_ & Hs & _ & _). unfold training_offset. rewrite Hs. reflexivity. Qed.

Lemma attempt_history (m : machine) (loops malicious_x tries : Z) (st : engine) :
  history (attempt m loops malicious_x tries st)
  = (evict_channel
     ++ snd (train_and_attack (globs st) loops
               (training_offset (globs st) tries) malicious_x)
     ++ Ev_mfence
        :: measure_events
             (fst (train_and_attack (globs st) loops
                     (training_offset (globs st) tries) malicious_x))
             m tries (training_offset (globs st) tries))
    :: history st.
Proof. unfold attempt. cbn [history]. reflexivity. Qed.

Lemma attempt_in_bounds (m : machine) (loops malicious_x tries : Z)
    (st : engine) :
  in_size_t malicious_x ->
  same_arrays g0 (globs st) ->
  Forall (Forall (in_bounds_event g0)) (history st) ->
  Forall (Forall (in_bounds_event g0))
         (history (attempt m loops malicious_x tries st)).
Proof.
  intros Hm Hs Hh. rewrite attempt_history.
  apply Forall_cons_2; [|exact Hh].
  pose proof (training_offset_range (globs st) tries Hs) as Ht.
  assert (Htx : in_size_t (training_offset (globs st) tries))
    by (unfold in_size_t, SIZE_BITS; lia).
  apply Forall_app. split; [apply evict_channel_in_bounds|].
  apply Forall_app. split.
  - unfold train_and_attack. apply train_steps_in_bounds.
    + exact Htx.
    + exact Hm.
    + apply countdown_nonneg.
    + exact Hs.
    + apply Forall_nil_2.
  - apply Forall_cons_2; [exact I|].
    rewrite (training_offset_same (globs st) tries Hs).
    apply measure_events_in_bounds.
    eapply same_arrays_trans; [exact Hs|]. apply train_and_attack_globals.
Qed.

Lemma attempts_in_bounds (m : machine) (loops malicious_x : Z) (n : nat) :
  in_size_t malicious_x ->
  forall st,
    same_arrays g0 (globs st) ->
    Forall (Forall (in_bounds_event g0)) (history st) ->
    Forall (Forall (in_bounds_event g0))
           (history (fst (attempts m loops malicious_x n st))).
Proof.
  intros Hm. induction n as [|n IH]; intros st Hs Hh; cbn [attempts];
    [exact Hh|].
  pose proof (attempt_in_bounds m loops malicious_x (Z.of_nat (S n)) st
                Hm Hs Hh) as Hh'.
  destruct (clear_success_now _); cbn [fst]; [exact Hh'|].
  apply IH; [|exact Hh'].
  rewrite attempt_globs.
  eapply same_arrays_trans; [exact Hs|]. apply train_and_attack_globals.
Qed.

End Reads.

(** X4. Architecturally the whole engine stays in bounds: in every round
    of a run, every element of [array1] that is loaded or stored (by the
    victim or by line 148) lies below [array1_size], whatever
    [malicious_x] is, and every element of [array2] lies in the array. *)
Theorem engine_reads_in_bounds (m : machine) (g : globals) (malicious_x : Z)
    (args : arguments) :
  length (array1 g) = 160%nat ->
  1 <= array1_size g <= Z.of_nat (length (array1 g)) ->
  Forall (fun b => 0 <= b < 256) (array1 g) ->
  in_size_t malicious_x ->
  Forall (Forall (in_bounds_event g))
         (history (fst (engine_loop m g malicious_x args))).
Proof.
  intros Hlen Hsize Hbytes Hm. rewrite Hlen in Hsize.
  apply attempts_in_bounds.
  - lia.
  - exact Hbytes.
  - exact Hm.
  - apply same_arrays_refl.
  - apply Forall_nil_2.
Qed.

Lemma engine_reads_in_bounds_witness :
  Forall (Forall (in_bounds_event (main_globals 100)))
         (history (fst (engine_loop only_zero_hits (main_globals 100) 200
                          one_try))).
Proof.
  apply (engine_reads_in_bounds only_zero_hits (main_globals 100) 200 one_try).
  - reflexivity.
  - vm_compute. split; discriminate.
  - apply Forall_app. split.
    + repeat (apply Forall_cons_2; [lia|]). apply Forall_nil_2.
    + apply Forall_replicate. lia.
  - unfold in_size_t, SIZE_BITS. lia.
Defined.

(** ** The scores as hit counts *)

Section HitCounts.

Variables (m : machine) (loops malicious_x : Z) (g0 : globals).

Lemma is_hit_same (g : globals) (time2 mix_i training_x : Z) :
  same_arrays g0 g ->
  is_hit g time2 mix_i training_x = is_hit g0 time2 mix_i training_x.
Proof.
  intros (Ha & _ & _ & Ht). unfold is_hit. rewrite Ha, Ht. reflexivity.
Qed.

Lemma attempt_score (tries : Z) (st : engine) (c : Z) :
  0 <= c < 256 -> length (results st) = 256%nat ->
  same_arrays g0 (globs st) ->
  load (results (attempt m loops malicious_x tries st)) c
  = load (results st) c
    + (if is_hit g0 (reload_time m tries (unmix c)) c
                 (training_offset g0 tries) then 1 else 0).
Proof.
  intros Hc Hlen Hs. rewrite attempt_results.
  rewrite <- (mix_unmix c Hc) at 1 2.
  rewrite measure_channel_visited by (auto using unmix_range).
  rewrite (mix_unmix c Hc).
  rewrite is_hit_same
    by (eapply same_arrays_trans; [exact Hs | apply train_and_attack_globals]).
  destruct Hs as (_ & Hs & _ & _).
  unfold training_offset. rewrite Hs. reflexivity.
Qed.

Lemma attempt_results_length (tries : Z) (st : engine) :
  length (results (attempt m loops malicious_x tries st))
  = length (results st).
Proof. rewrite attempt_results. apply measure_channel_length. Qed.

Lemma rounds_unbroken_score (c : Z) (r : nat) :
  0 <= c < 256 ->
  forall tries st,
    length (results st) = 256%nat -> same_arrays g0 (globs st) ->
    load (results (rounds_unbroken m loops malicious_x r tries st)) c
    = load (results st) c + hit_count m g0 c r tries.
Proof.
  intros Hc. induction r as [|r IH]; intros tries st Hlen Hs;
    cbn [rounds_unbroken hit_count]; [lia|].
  rewrite IH.
  - rewrite (attempt_score tries st c Hc Hlen Hs). lia.
  - rewrite attempt_results_length. exact Hlen.
  - rewrite attempt_globs.
    eapply same_arrays_trans; [exact Hs | apply train_and_attack_globals].
Qed.

(** The state that the loop leaves is the state after the rounds that it
    ran. *)
Lemma attempts_unbroken (n : nat) :
  forall st,
    (rounds_run st <= rounds_run (fst (attempts m loops malicious_x n st)))%nat
    /\ fst (attempts m loops malicious_x n st)
       = rounds_unbroken m loops malicious_x
           (rounds_run (fst (attempts m loops malicious_x n st)) - rounds_run st)
           (Z.of_nat n) st.
Proof.
  induction n as [|n IH]; intros st.
  - cbn [attempts fst]. rewrite Nat.sub_diag. split; [lia | reflexivity].
  - cbn [attempts].
    destruct (clear_success_now _); cbn [fst].
    + rewrite rounds_run_attempt.
      replace (S (rounds_run st) - rounds_run st)%nat with 1%nat by lia.
      split; [lia | reflexivity].
    + destruct (IH (attempt m loops malicious_x (Z.of_nat (S n)) st))
        as [Hle Heq].
      rewrite rounds_run_attempt in Hle, Heq.
      split; [lia|].
      replace (rounds_run (fst (attempts m loops malicious_x n
                 (attempt m loops malicious_x (Z.of_nat (S n)) st)))
               - rounds_run st)%nat
        with (S (rounds_run (fst (attempts m loops malicious_x n
                  (attempt m loops malicious_x (Z.of_nat (S n)) st)))
                 - S (rounds_run st)))%nat by lia.
      rewrite rounds_unbroken_S. exact Heq.
Qed.

End HitCounts.

(** X5. The score of a candidate is its accumulated hit count: after a
    run, [results[c]] is the number of rounds, among those that ran, in
    which the reload of [c] was a hit. *)
Theorem scores_are_hit_counts (m : machine) (g : globals) (malicious_x : Z)
    (args : arguments) (c : Z) :
  1 <= tries args -> 0 <= c < 256 ->
  load (results (fst (engine_loop m g malicious_x args))) c
  = hit_count m g c (rounds_run (fst (engine_loop m g malicious_x args)))
              (tries args).
Proof.
  intros Ht Hc.
  destruct (attempts_unbroken m (loops args) malicious_x
              (Z.to_nat (tries args)) (engine_start g)) as [_ Heq].
  fold (engine_loop m g malicious_x args) in Heq.
  change (rounds_run (engine_start g)) with 0%nat in Heq.
  rewrite Nat.sub_0_r, Z2Nat.id in Heq by lia.
  rewrite Heq at 1.
  rewrite (rounds_unbroken_score m (loops args) malicious_x g c _ Hc);
    [|reflexivity|apply same_arrays_refl].
  cbn [results engine_start]. unfold load at 1.
  rewrite lookup_replicate_2 by lia. reflexivity.
Qed.

Lemma scores_are_hit_counts_witness :
  load (results (fst (engine_loop only_zero_hits (main_globals 100) 200
                        one_try))) 0
  = hit_count only_zero_hits (main_globals 100) 0
      (rounds_run (fst (engine_loop only_zero_hits (main_globals 100) 200
                          one_try)))
      (tries one_try).
Proof.
  apply (scores_are_hit_counts only_zero_hits (main_globals 100) 200 one_try 0).
  - vm_compute. discriminate.
  - lia.
Defined.

(** ** A channel that leaks one candidate *)

Section Leak.

Lemma list_eq_load (l l' : list Z) :
  length l = 256%nat -> length l' = 256%nat ->
  (forall c, 0 <= c < 256 -> load l c = load l' c) -> l = l'.
Proof.
  intros Hl Hl' Heq. apply list_eq. intros i.
  destruct (Nat.lt_ge_cases i 256) as [Hi|Hi].
  - destruct (lookup_lt_is_Some_2 l i ltac:(lia)) as [x Hx].
    destruct (lookup_lt_is_Some_2 l' i ltac:(lia)) as [y Hy].
    specialize (Heq (Z.of_nat i) ltac:(lia)). unfold load in Heq.
    rewrite Nat2Z.id, Hx, Hy in Heq. cbn in Heq. congruence.
  - rewrite !lookup_ge_None_2 by lia. reflexivity.
Qed.

(** The measurement leaves in [junk] the probe byte of the last visit. *)
Lemma measure_channel_junk (g : globals) (m : machine) (tries training_x : Z)
    (results : list Z) (junk : Z) :
  snd (measure_channel g m tries training_x results junk)
  = load (array2 g) (mix 255 * PAGESIZE).
Proof.
  unfold measure_channel.
  change candidates with (seqZ 0 255 ++ [255]).
  rewrite fold_left_app. cbn [fold_left]. unfold measure_step at 1.
  destruct (is_hit _ _ _ _); reflexivity.
Qed.

Lemma attempt_junk (m : machine) (loops malicious_x tries : Z) (st : engine) :
  junk (attempt m loops malicious_x tries st)
  = load (array2 (globs st)) (mix 255 * PAGESIZE).
Proof.
  unfold attempt. cbn [junk]. rewrite measure_channel_junk.
  destruct (train_and_attack_globals (globs st) loops
              (training_offset (globs st) tries) malicious_x)
    as [(_ & _ & Ha2 & _) _].
  rewrite Ha2. reflexivity.
Qed.

Lemma single_hit_length (b : Z) : length (single_hit b) = 256%nat.
Proof. unfold single_hit. rewrite length_insert. reflexivity. Qed.

Lemma single_hit_load (b c : Z) :
  0 <= b < 256 -> 0 <= c < 256 ->
  load (single_hit b) c = if c =? b then 1 else 0.
Proof.
  intros Hb Hc. unfold load, single_hit.
  destruct (Z.eqb_spec c b) as [->|Hne].
  - rewrite list_lookup_insert_eq by (rewrite length_replicate; lia).
    reflexivity.
  - rewrite list_lookup_insert_ne by lia.
    rewrite lookup_replicate_2 by lia. reflexivity.
Qed.

(** On a table that holds one hit for [b] and nothing else, the scan puts
    [b] first and line 171 is satisfied: checked for each [b]. *)
Lemma single_hit_scan (b : Z) :
  0 <= b < 256 ->
  fst (locate_best (single_hit b)) = b
  /\ clear_success (single_hit b) (fst (locate_best (single_hit b)))
                   (snd (locate_best (single_hit b))) = true.
Proof.
  intros Hb.
  assert (Hall : forallb single_hit_first candidates = true)
    by (vm_compute; reflexivity).
  pose proof (candidates_check single_hit_first Hall b Hb) as H.
  unfold single_hit_first in H. cbv zeta in H.
  apply andb_true_iff in H. destruct H as [H1 H2].
  apply Z.eqb_eq in H1. split; assumption.
Qed.

Lemma engine_loop_leak (m : machine) (g : globals) (malicious_x : Z)
    (args : arguments) (b : Z) :
  1 <= tries args ->
  0 <= CACHE_HIT_THRESHOLD g <= INT_MAX ->
  0 <= b < 256 ->
  b <> load (array1 g) (training_offset g (tries args)) ->
  (forall i, 0 <= i < 256 ->
     reload_time m (tries args) i <= CACHE_HIT_THRESHOLD g <-> mix i = b) ->
  rounds_run (fst (engine_loop m g malicious_x args)) = 1%nat
  /\ report (fst (engine_loop m g malicious_x args))
     = Some (b, if b =? 0 then Z.lxor 1 (load (array2 g) (102 * PAGESIZE))
                else 1).
Proof.
  intros Ht Hthr Hb Hne Hleak.
  unfold engine_loop.
  destruct (Z.to_nat (tries args)) as [|n] eqn:En; [lia|].
  assert (Htries : Z.of_nat (S n) = tries args) by lia.
  cbn [attempts]. rewrite Htries.
  set (st := attempt m (loops args) malicious_x (tries args) (engine_start g)).
  assert (Hres : results st = single_hit b).
  { apply list_eq_load.
    - subst st. rewrite attempt_results_length. reflexivity.
    - apply single_hit_length.
    - intros c Hc. subst st.
      rewrite (attempt_score m (loops args) malicious_x g (tries args)
                 (engine_start g) c Hc eq_refl (same_arrays_refl g)).
      rewrite (single_hit_load b c Hb Hc).
      replace (load (results (engine_start g)) c) with 0
        by (unfold load; cbn [results engine_start];
            rewrite lookup_replicate_2 by lia; reflexivity).
      pose proof (unmix_range c Hc) as Hu.
      pose proof (is_hit_spec g (training_offset g (tries args))
                    (reload_time m (tries args) (unmix c)) c Hthr) as Hspec.
      rewrite (Hleak (unmix c) Hu), (mix_unmix c Hc) in Hspec.
      destruct (Z.eqb_spec c b) as [->|Hcb].
      + replace (is_hit _ _ _ _) with true
          by (symmetry; apply Hspec; split; [reflexivity | exact Hne]).
        reflexivity.
      + destruct (is_hit _ _ _ _); [|reflexivity].
        exfalso. apply Hcb. apply Hspec. reflexivity. }
  destruct (single_hit_scan b Hb) as [Hj Hclear]. rewrite <- Hres in Hj, Hclear.
  assert (Hbest : best st = Some (locate_best (results st)))
    by (subst st; apply attempt_best).
  assert (Hjunk : junk st = load (array2 g) (102 * PAGESIZE))
    by (subst st; apply attempt_junk).
  assert (Hlen : length (results st) = 256%nat)
    by (rewrite Hres; apply single_hit_length).
  assert (Hload : load (results st) b = 1).
  { rewrite Hres, (single_hit_load b b Hb Hb), Z.eqb_refl. reflexivity. }
  assert (Hnow : clear_success_now st = true).
  { unfold clear_success_now. rewrite Hbest.
    destruct (locate_best (results st)) as [j k]. exact Hclear. }
  rewrite Hnow. cbn [fst]. split; [subst st; apply rounds_run_attempt|].
  unfold report. rewrite Hbest.
  destruct (locate_best (results st)) as [j k]. cbn [fst] in Hj. subst j.
  clearbody st. clear Hres Hclear Hnow Hbest Hleak.
  f_equal. f_equal; [unfold to_uint8; apply Z.mod_small; lia|].
  change 0%nat with (Z.to_nat 0).
  destruct (Z.eqb_spec b 0) as [->|Hb0].
  - rewrite load_alter_eq by lia. rewrite Hload, Hjunk. reflexivity.
  - rewrite load_alter_ne by lia. exact Hload.
Qed.


End Leak.

(** X6. A channel whose only fast reload is that of candidate [b] makes
    the engine stop after its first round with the guess [b] and the score
    1 (for [b = 0], 1 xor the probe byte that line 176 mixes in), whatever
    the number of tries, the number of loops and the offset are. *)
Theorem leaking_channel_read (m : machine) (g : globals) (malicious_x : Z)
    (args : arguments) (b : Z) :
  1 <= tries args ->
  0 <= CACHE_HIT_THRESHOLD g <= INT_MAX ->
  0 <= b < 256 ->
  b <> load (array1 g) (training_offset g (tries args)) ->
  (forall i, 0 <= i < 256 ->
     reload_time m (tries args) i <= CACHE_HIT_THRESHOLD g <-> mix i = b) ->
  rounds_run (fst (engine_loop m g malicious_x args)) = 1%nat
  /\ spectre_pht_sa_ip_read m g malicious_x args
     = Some (b, if b =? 0 then Z.lxor 1 (load (array2 g) (102 * PAGESIZE))
                else 1).
Proof. apply engine_loop_leak. Qed.

Lemma leaking_channel_read_witness :
  spectre_pht_sa_ip_read (leaks 65) (main_globals 100) 200 arg_init
  = Some (65, 1).
Proof.
  apply (leaking_channel_read (leaks 65) (main_globals 100) 200 arg_init 65).
  - vm_compute. discriminate.
  - vm_compute. split; discriminate.
  - lia.
  - vm_compute. discriminate.
  - intros i Hi. unfold reload_time, leaks, to_size_t, SIZE_BITS.
    cbn [rdtsc_start rdtsc_end CACHE_HIT_THRESHOLD main_globals].
    destruct (Z.eqb_spec (mix i) 65) as [E|E].
    + split; [intros _; exact E | intros _; vm_compute; discriminate].
    + split; [intros H; vm_compute in H; exfalso; apply H; reflexivity
             | intros H; contradiction].
Defined.

(** ** The Hamming distance and the sum of [util.c] *)

Section Hamming.

Lemma string_hamming_dist_S (str1 str2 : list Z) (n : nat) :
  string_hamming_dist str1 str2 (Z.of_nat (S n))
  = string_hamming_dist str1 str2 (Z.of_nat n)
    + (if negb (load str1 (Z.of_nat n) =? load str2 (Z.of_nat n))
       then 1 else 0).
Proof.
  unfold string_hamming_dist.
  rewrite seqZ_S, fold_left_app. cbn [fold_left]. rewrite Z.add_0_l.
  reflexivity.
Qed.

Lemma string_hamming_dist_range (str1 str2 : list Z) (n : nat) :
  0 <= string_hamming_dist str1 str2 (Z.of_nat n) <= Z.of_nat n.
Proof.
  induction n as [|n IH]; [vm_compute; split; discriminate|].
  rewrite string_hamming_dist_S. destruct (negb _); lia.
Qed.

Lemma string_hamming_dist_zero (str1 str2 : list Z) (n : nat) :
  string_hamming_dist str1 str2 (Z.of_nat n) = 0
  <-> forall i, 0 <= i < Z.of_nat n -> load str1 i = load str2 i.
Proof.
  induction n as [|n IH]; [split; [intros _ i Hi; lia | reflexivity]|].
  rewrite string_hamming_dist_S.
  pose proof (string_hamming_dist_range str1 str2 n) as Hr.
  destruct (Z.eqb_spec (load str1 (Z.of_nat n)) (load str2 (Z.of_nat n)))
    as [E|E]; cbn [negb].
  - rewrite Z.add_0_r, IH. split.
    + intros H i Hi. destruct (Z.eq_dec i (Z.of_nat n)) as [->|Hne];
        [exact E | apply H; lia].
    + intros H i Hi. apply H. lia.
  - split; [lia|]. intros H. exfalso. apply E, H. lia.
Qed.

Lemma string_hamming_dist_sym (str1 str2 : list Z) (n : nat) :
  string_hamming_dist str1 str2 (Z.of_nat n)
  = string_hamming_dist str2 str1 (Z.of_nat n).
Proof.
  induction n as [|n IH]; [reflexivity|].
  rewrite !string_hamming_dist_S, IH, (Z.eqb_sym (load str1 _)). reflexivity.
Qed.

Lemma string_hamming_dist_triangle (str1 str2 str3 : list Z) (n : nat) :
  string_hamming_dist str1 str3 (Z.of_nat n)
  <= string_hamming_dist str1 str2 (Z.of_nat n)
     + string_hamming_dist str2 str3 (Z.of_nat n).
Proof.
  induction n as [|n IH]; [vm_compute; discriminate|].
  rewrite !string_hamming_dist_S.
  destruct (Z.eqb_spec (load str1 (Z.of_nat n)) (load str3 (Z.of_nat n)));
    destruct (Z.eqb_spec (load str1 (Z.of_nat n)) (load str2 (Z.of_nat n)));
    destruct (Z.eqb_spec (load str2 (Z.of_nat n)) (load str3 (Z.of_nat n)));
    cbn [negb]; try lia; congruence.
Qed.

End Hamming.

(** X7. Within the two strings, [string_hamming_dist] lies between 0 and
    [size], is 0 exactly when the first [size] bytes agree, is symmetric
    and obeys the triangle inequality. *)
Theorem string_hamming_dist_metric (str1 str2 str3 : list Z) (size : Z) :
  0 <= size <= INT_MAX ->
  size <= Z.of_nat (length str1) -> size <= Z.of_nat (length str2) ->
  size <= Z.of_nat (length str3) ->
  0 <= string_hamming_dist str1 str2 size <= size
  /\ (string_hamming_dist str1 str2 size = 0
      <-> take (Z.to_nat size) str1 = take (Z.to_nat size) str2)
  /\ string_hamming_dist str1 str2 size = string_hamming_dist str2 str1 size
  /\ string_hamming_dist str1 str3 size
     <= string_hamming_dist str1 str2 size + string_hamming_dist str2 str3 size.
Proof.
  intros Hs H1 H2 H3. rewrite <- (Z2Nat.id size) by lia.
  split; [apply string_hamming_dist_range|].
  split; [|split;
           [apply string_hamming_dist_sym | apply string_hamming_dist_triangle]].
  rewrite string_hamming_dist_zero, Nat2Z.id. split.
  - intros Heq. apply list_eq. intros i.
    destruct (Nat.lt_ge_cases i (Z.to_nat size)) as [Hi|Hi].
    + rewrite !lookup_take_lt by exact Hi.
      destruct (lookup_lt_is_Some_2 str1 i ltac:(lia)) as [x Hx].
      destruct (lookup_lt_is_Some_2 str2 i ltac:(lia)) as [y Hy].
      specialize (Heq (Z.of_nat i) ltac:(lia)). unfold load in Heq.
      rewrite Nat2Z.id, Hx, Hy in Heq. cbn in Heq. congruence.
    + rewrite !lookup_take_ge by exact Hi. reflexivity.
  - intros Heq i Hi. unfold load.
    rewrite <- (lookup_take_lt str1 (Z.to_nat size)) by lia.
    rewrite <- (lookup_take_lt str2 (Z.to_nat size)) by lia.
    rewrite Heq. reflexivity.
Qed.

Lemma string_hamming_dist_metric_witness :
  0 <= string_hamming_dist [84; 104; 101] [84; 255; 101] 3 <= 3
  /\ (string_hamming_dist [84; 104; 101] [84; 255; 101] 3 = 0
      <-> take (Z.to_nat 3) [84; 104; 101] = take (Z.to_nat 3) [84; 255; 101]).
Proof.
  destruct (string_hamming_dist_metric [84; 104; 101] [84; 255; 101]
              [84; 104; 101] 3)
    as (Hr & Hz & _); [vm_compute; split; discriminate | cbn; lia ..|].
  split; [exact Hr | exact Hz].
Defined.

Section IntSum.

Lemma prefix_sum_S (array : list Z) (n : nat) :
  prefix_sum array (Z.of_nat (S n))
  = prefix_sum array (Z.of_nat n) + load array (Z.of_nat n).
Proof.
  unfold prefix_sum. rewrite seqZ_S, map_app, foldr_app. cbn [map foldr].
  rewrite Z.add_0_l, Z.add_0_r.
  generalize (map (load array) (seqZ 0 (Z.of_nat n))).
  intros l. induction l as [|x l IH]; cbn [foldr]; lia.
Qed.

Lemma int_sum_S (array : list Z) (n : nat) :
  int_sum array (Z.of_nat (S n))
  = int_sum array (Z.of_nat n) ≫= fun s => int_add s (load array (Z.of_nat n)).
Proof.
  unfold int_sum. rewrite seqZ_S, fold_left_app. cbn [fold_left].
  rewrite Z.add_0_l. reflexivity.
Qed.

Lemma int_sum_spec (array : list Z) (n : nat) (s : Z) :
  int_sum array (Z.of_nat n) = Some s
  <-> s = prefix_sum array (Z.of_nat n)
      /\ forall k, 0 <= k <= Z.of_nat n -> in_int (prefix_sum array k) = true.
Proof.
  revert s. induction n as [|n IH]; intros s.
  - change (int_sum array (Z.of_nat 0)) with (Some 0).
    change (prefix_sum array (Z.of_nat 0)) with 0. split.
    + intros [= <-]. split; [reflexivity|]. intros k Hk.
      assert (k = 0) as -> by lia. reflexivity.
    + intros [-> _]. reflexivity.
  - rewrite int_sum_S, prefix_sum_S. split.
    + destruct (int_sum array (Z.of_nat n)) as [s0|] eqn:E; cbn; [|discriminate].
      destruct (proj1 (IH s0) eq_refl) as [-> Hpre].
      unfold int_add.
      destruct (in_int _) eqn:Ein; [|discriminate].
      intros [= <-]. split; [reflexivity|]. intros k Hk.
      destruct (Z.eq_dec k (Z.of_nat (S n))) as [->|Hne].
      * rewrite prefix_sum_S. exact Ein.
      * apply Hpre. lia.
    + intros [-> Hpre].
      rewrite (proj2 (IH (prefix_sum array (Z.of_nat n)))).
      * cbn. unfold int_add.
        specialize (Hpre (Z.of_nat (S n)) ltac:(lia)).
        rewrite prefix_sum_S in Hpre. rewrite Hpre. reflexivity.
      * split; [reflexivity|]. intros k Hk. apply Hpre. lia.
Qed.

Lemma prefix_sum_bounds (array : list Z) (bound : Z) (n : nat) :
  (forall i, 0 <= i < Z.of_nat n -> 0 <= load array i <= bound) ->
  0 <= prefix_sum array (Z.of_nat n) <= Z.of_nat n * bound.
Proof.
  induction n as [|n IH]; intros Hb.
  - change (prefix_sum array (Z.of_nat 0)) with 0. lia.
  - rewrite prefix_sum_S.
    specialize (IH ltac:(intros i Hi; apply Hb; lia)).
    specialize (Hb (Z.of_nat n) ltac:(lia)). nia.
Qed.

End IntSum.

(** X8. [int_sum] returns the sum of the first [size] elements exactly
    when every partial sum stays an [int]; this is so, and the sum lies
    between 0 and [size * bound], when the elements lie between 0 and
    [bound] and [size * bound] is an [int]. *)
Theorem int_sum_result (array : list Z) (size : Z) :
  0 <= size <= INT_MAX -> size <= Z.of_nat (length array) ->
  (forall s, int_sum array size = Some s
             <-> s = prefix_sum array size
                 /\ forall k, 0 <= k <= size ->
                      - 2 ^ 31 <= prefix_sum array k <= INT_MAX)
  /\ (forall bound,
        (forall i, 0 <= i < size -> 0 <= load array i <= bound) ->
        size * bound <= INT_MAX ->
        int_sum array size = Some (prefix_sum array size)
        /\ 0 <= prefix_sum array size <= size * bound).
Proof.
  intros Hs Hlen.
  assert (Hn : exists n, size = Z.of_nat n) by (exists (Z.to_nat size); lia).
  destruct Hn as [n ->].
  assert (Hspec : forall s, int_sum array (Z.of_nat n) = Some s
             <-> s = prefix_sum array (Z.of_nat n)
                 /\ forall k, 0 <= k <= Z.of_nat n ->
                      - 2 ^ 31 <= prefix_sum array k <= INT_MAX).
  { intros s. rewrite int_sum_spec.
    split; intros [-> H]; (split; [reflexivity|]); intros k Hk;
      specialize (H k Hk); unfold in_int in *;
      rewrite ?andb_true_iff in *; lia. }
  split; [exact Hspec|].
  intros bound Hb Hmax.
  assert (Hpre : forall k, 0 <= k <= Z.of_nat n ->
                   0 <= prefix_sum array k <= k * bound).
  { intros k Hk. rewrite <- (Z2Nat.id k) by lia.
    apply prefix_sum_bounds. intros i Hi. apply Hb. lia. }
  split; [|apply Hpre; lia].
  apply Hspec. split; [reflexivity|].
  intros k Hk. specialize (Hpre k Hk).
  assert (Hle : k * bound <= Z.of_nat n * bound).
  { destruct (Z.eq_dec (Z.of_nat n) 0) as [E|E].
    - assert (k = 0) as -> by lia. rewrite E. lia.
    - specialize (Hb 0 ltac:(lia)).
      apply Z.mul_le_mono_nonneg_r; lia. }
  unfold INT_MAX in *. change (2 ^ 31) with 2147483648 in *. lia.
Qed.

Lemma int_sum_result_witness :
  int_sum [1; 0; 2] 3 = Some (prefix_sum [1; 0; 2] 3)
  /\ 0 <= prefix_sum [1; 0; 2] 3 <= 3 * 2.
Proof.
  destruct (int_sum_result [1; 0; 2] 3) as [_ H];
    [vm_compute; split; discriminate | cbn; lia |].
  apply (H 2).
  - intros i Hi.
    assert (Hc : i = 0 \/ i = 1 \/ i = 2) by lia.
    destruct Hc as [-> | [-> | ->]]; vm_compute; split; discriminate.
  - vm_compute. discriminate.
Defined.

(** ** The option parser *)

Section Arguments.

Variables (ARGP_KEY_END ARGP_ERR_UNKNOWN : Z).

Lemma valid_arguments_init : valid_arguments arg_init.
Proof. unfold valid_arguments, arg_init. cbn. lia. Qed.

Lemma arg_parse_opt_valid (key arg : Z) (a a' : arguments) (ret : Z) :
  valid_arguments a ->
  arg_parse_opt ARGP_KEY_END ARGP_ERR_UNKNOWN key arg a = Parse_return ret a' ->
  valid_arguments a'.
Proof.
  intros (Hq & Hv & Hm & Ht & Hl & Hc). unfold arg_parse_opt.
  repeat match goal with
         | |- context [if ?c then _ else _] => destruct c eqn:?
         end;
    intros [= <- <-] || discriminate;
    unfold valid_arguments; cbn [quiet verbose meta tries loops cache_threshold];
    repeat split; auto; lia.
Qed.

Lemma arg_parse_calls_valid (calls : list (Z * Z)) :
  forall a a',
    valid_arguments a ->
    arg_parse_calls ARGP_KEY_END ARGP_ERR_UNKNOWN calls a = Some a' ->
    valid_arguments a'.
Proof.
  induction calls as [|[key arg] calls IH]; intros a a' Ha; cbn [arg_parse_calls].
  - intros [= <-]. exact Ha.
  - destruct (arg_parse_opt _ _ key arg a) as [ret a1|] eqn:E; [|discriminate].
    apply IH. exact (arg_parse_opt_valid key arg a a1 ret Ha E).
Qed.

End Arguments.

(** X9. Whatever keys and values the parser is called with, starting from
    the defaults of [arg_init], the structure it leaves, if no call ended
    the program, is a valid configuration: flags 0 or 1, [meta], [tries]
    and [loops] at least 1, and the threshold 0 or positive. *)
Theorem arg_parse_valid (ARGP_KEY_END ARGP_ERR_UNKNOWN : Z)
    (calls : list (Z * Z)) (a : arguments) :
  arg_parse_calls ARGP_KEY_END ARGP_ERR_UNKNOWN calls arg_init = Some a ->
  valid_arguments a.
Proof.
  apply arg_parse_calls_valid, valid_arguments_init.
Qed.

Lemma arg_parse_valid_witness :
  valid_arguments
    {| quiet := 1; verbose := 0; meta := 1; tries := 50; loops := 30;
       cache_threshold := 120 |}.
Proof.
  apply (arg_parse_valid 16777217 7
           [(char_code "t", 50); (char_code "q", 0); (char_code "c", 120);
            (16777217, 0)]).
  vm_compute. reflexivity.
Defined.

(** ** The simulation switch *)

Section Gem5.

Lemma char_code_inj (c1 c2 : ascii) : char_code c1 = char_code c2 -> c1 = c2.
Proof.
  unfold char_code. intros H. apply N2Z.inj in H.
  rewrite <- (ascii_N_embedding c1), <- (ascii_N_embedding c2), H.
  reflexivity.
Qed.

(** On C strings [strcmp] is 0 exactly on equal strings. *)
Lemma strcmp_eq (s1 : string) :
  forall s2, no_nul s1 = true -> no_nul s2 = true ->
             (strcmp s1 s2 = 0 <-> s1 = s2).
Proof.
  induction s1 as [|c1 r1 IH]; intros [|c2 r2] H1 H2;
    cbn [strcmp no_nul] in *.
  - split; reflexivity.
  - apply andb_true_iff in H2 as [H2 _]. apply negb_true_iff, Z.eqb_neq in H2.
    split; [lia | discriminate].
  - apply andb_true_iff in H1 as [H1 _]. apply negb_true_iff, Z.eqb_neq in H1.
    split; [lia | discriminate].
  - apply andb_true_iff in H1 as [_ H1]. apply andb_true_iff in H2 as [_ H2].
    destruct (Z.eqb_spec (char_code c1) (char_code c2)) as [E|E].
    + apply char_code_inj in E. subst c2. rewrite (IH r2 H1 H2).
      split; [intros ->; reflexivity | intros [= ->]; reflexivity].
    + split; [lia|]. intros [= -> _]. contradiction.
Qed.

End Gem5.

(** X10. [gem5_is_sim] is 0 exactly when [GEM5_SIM] is unset or is the
    string [false]; every other value, the empty string too, switches the
    calibration to 10 samples instead of 100000. *)
Theorem gem5_is_sim_off (GEM5_SIM : option string) :
  (forall s, GEM5_SIM = Some s -> no_nul s = true) ->
  (gem5_is_sim GEM5_SIM = 0
   <-> GEM5_SIM = None \/ GEM5_SIM = Some "false"%string)
  /\ calibration_count (gem5_is_sim GEM5_SIM)
     = match GEM5_SIM with
       | None => 100000
       | Some s => if String.eqb s "false" then 100000 else 10
       end.
Proof.
  intros Hc.
  assert (Hiff : gem5_is_sim GEM5_SIM = 0
                 <-> GEM5_SIM = None \/ GEM5_SIM = Some "false"%string).
  { destruct GEM5_SIM as [s|]; cbn [gem5_is_sim].
    - rewrite (strcmp_eq s "false" (Hc s eq_refl) eq_refl).
      split; [intros ->; right; reflexivity | intros [H|[= ->]];
                                              [discriminate | reflexivity]].
    - split; [left; reflexivity | reflexivity]. }
  split; [exact Hiff|].
  unfold calibration_count.
  destruct GEM5_SIM as [s|]; [|reflexivity].
  destruct (String.eqb_spec s "false") as [->|Hne]; [reflexivity|].
  destruct (Z.eqb_spec (gem5_is_sim (Some s)) 0) as [E|E]; [|reflexivity].
  apply Hiff in E as [E|[= E]]; [discriminate | contradiction].
Qed.

Lemma gem5_is_sim_off_witness :
  calibration_count (gem5_is_sim (Some "true"%string)) = 10
  /\ calibration_count (gem5_is_sim (Some ""%string)) = 10.
Proof.
  split.
  - apply (proj2 (gem5_is_sim_off (Some "true"%string)
                    ltac:(intros s [= <-]; reflexivity))).
  - apply (proj2 (gem5_is_sim_off (Some ""%string)
                    ltac:(intros s [= <-]; reflexivity))).
Defined.

(** ** The timers of [asm.c] *)

Section Timing.

Lemma to_int_small (z : Z) : 0 <= z <= INT_MAX -> to_int z = z.
Proof.
  unfold INT_MAX, to_int. intros Hz.
  change (2 ^ 31) with 2147483648 in *. change (2 ^ 32) with 4294967296.
  rewrite Z.mod_small by lia. lia.
Qed.

Lemma to_int_range (z : Z) : - 2 ^ 31 <= to_int z <= INT_MAX.
Proof.
  unfold INT_MAX, to_int.
  change (2 ^ 31) with 2147483648. change (2 ^ 32) with 4294967296.
  pose proof (Z.mod_pos_bound (z + 2147483648) 4294967296 ltac:(lia)). lia.
Qed.

End Timing.

(** X11. [reload_t] and [flush_reload_t] return the same [int]; it is
    the number of cycles elapsed between the two readings whenever that
    number is at most [INT_MAX], also when the 64-bit counter wrapped
    around between them. *)
Theorem reload_t_elapsed (start end_ : Z) :
  in_size_t start -> in_size_t end_ ->
  - 2 ^ 31 <= reload_t (start, end_) <= INT_MAX
  /\ flush_reload_t (start, end_) = reload_t (start, end_)
  /\ (start <= end_ -> end_ - start <= INT_MAX ->
      reload_t (start, end_) = end_ - start)
  /\ (end_ < start -> end_ + 2 ^ 64 - start <= INT_MAX ->
      reload_t (start, end_) = end_ + 2 ^ 64 - start).
Proof.
  unfold in_size_t, SIZE_BITS. intros Hs He.
  split; [apply to_int_range|]. split; [reflexivity|].
  unfold reload_t, to_size_t, SIZE_BITS. cbn [fst snd].
  split.
  - intros Hle Hmax. rewrite Z.mod_small by lia. apply to_int_small. lia.
  - intros Hlt Hmax.
    replace ((end_ - start) mod 2 ^ 64) with (end_ + 2 ^ 64 - start).
    + apply to_int_small. lia.
    + apply Z.mod_unique_pos with (q := -1); lia.
Qed.

Lemma reload_t_elapsed_witness :
  reload_t (2 ^ 64 - 5, 10) = 10 + 2 ^ 64 - (2 ^ 64 - 5).
Proof.
  apply (reload_t_elapsed (2 ^ 64 - 5) 10).
  - unfold in_size_t, SIZE_BITS. lia.
  - unfold in_size_t, SIZE_BITS. lia.
  - lia.
  - vm_compute. discriminate.
Defined.

(** ** The calibration within its samples *)

Section Means.

(** While the samples are [int]s that are not negative, and there are at
    most 100000 of them, the sum does not wrap around. *)
Lemma accumulate_bounds (sample : Z -> Z) (lo hi : Z) (n : nat) :
  0 <= lo -> hi <= INT_MAX -> Z.of_nat n <= 100000 ->
  (forall i, 0 <= i < Z.of_nat n -> lo <= sample i <= hi) ->
  Z.of_nat n * lo <= accumulate sample (Z.of_nat n) <= Z.of_nat n * hi.
Proof.
  unfold INT_MAX. change (2 ^ 31) with 2147483648.
  intros Hlo Hhi. induction n as [|n IH]; intros Hn Hs.
  - change (accumulate sample (Z.of_nat 0)) with 0. lia.
  - unfold accumulate. rewrite seqZ_S, fold_left_app. cbn [fold_left].
    fold (accumulate sample (Z.of_nat n)). rewrite Z.add_0_l.
    specialize (IH ltac:(lia) ltac:(intros i Hi; apply Hs; lia)).
    specialize (Hs (Z.of_nat n) ltac:(lia)).
    unfold to_size_t, SIZE_BITS. change (2 ^ 64) with 18446744073709551616.
    rewrite (Z.mod_small (sample _)) by lia.
    rewrite Z.mod_small by nia. nia.
Qed.

Lemma mean_bounds (sample : Z -> Z) (lo hi gem5 : Z) :
  0 <= lo ->
  (forall i, 0 <= i < calibration_count gem5 ->
     lo <= to_int (sample i) <= hi) ->
  lo <= accumulate (fun i => to_int (sample i)) (calibration_count gem5)
        / calibration_count gem5 <= hi.
Proof.
  intros Hlo Hs.
  assert (Hcount : 0 < calibration_count gem5 <= 100000)
    by (destruct (calibration_count_cases gem5) as [-> | ->]; lia).
  assert (Hhi : lo <= Z.min hi INT_MAX).
  { specialize (Hs 0 ltac:(lia)). pose proof (to_int_range (sample 0)). lia. }
  pose proof (accumulate_bounds (fun i => to_int (sample i)) lo
                (Z.min hi INT_MAX) (Z.to_nat (calibration_count gem5))
                Hlo ltac:(lia) ltac:(lia)) as Hb.
  rewrite Z2Nat.id in Hb by lia.
  specialize (Hb ltac:(intros i Hi; specialize (Hs i Hi);
                        pose proof (to_int_range (sample i)); lia)).
  split.
  - apply Z.div_le_lower_bound; lia.
  - apply Z.div_le_upper_bound; [lia|].
    assert (calibration_count gem5 * Z.min hi INT_MAX
            <= calibration_count gem5 * hi) by (apply Z.mul_le_mono_nonneg_l; lia).
    lia.
Qed.

End Means.

(** X12. When the reload samples lie in [a, b] and the flush+reload
    samples in [c, d], none negative, the two means lie in these intervals
    and the threshold between [(c + 2a) / 3] and [(d + 2b) / 3]; when every
    reload is faster than every flush+reload ([b < c]) the threshold lies
    in [a, d). *)
Theorem calibration_within_samples (gem5 : Z)
    (reload_clock flush_clock : Z -> Z * Z) (a b c d : Z) :
  0 <= a -> 0 <= c ->
  (forall i, 0 <= i < calibration_count gem5 ->
     a <= reload_t (reload_clock i) <= b) ->
  (forall i, 0 <= i < calibration_count gem5 ->
     c <= flush_reload_t (flush_clock i) <= d) ->
  a <= mean_reload_time gem5 reload_clock <= b
  /\ c <= mean_flush_reload_time gem5 flush_clock <= d
  /\ (c + 2 * a) / 3
     <= flush_reload_threshold gem5 reload_clock flush_clock
     <= (d + 2 * b) / 3
  /\ (b < c ->
      a <= flush_reload_threshold gem5 reload_clock flush_clock < d).
Proof.
  intros Ha Hc Hr Hf.
  assert (Hmr : a <= mean_reload_time gem5 reload_clock <= b).
  { unfold mean_reload_time, reload_t in *. cbv zeta.
    apply (mean_bounds (fun i => to_size_t (snd (reload_clock i)
                                            - fst (reload_clock i)))
             a b gem5 Ha Hr). }
  assert (Hmf : c <= mean_flush_reload_time gem5 flush_clock <= d).
  { unfold mean_flush_reload_time, flush_reload_t in *. cbv zeta.
    apply (mean_bounds (fun i => to_size_t (snd (flush_clock i)
                                            - fst (flush_clock i)))
             c d gem5 Hc Hf). }
  split; [exact Hmr|]. split; [exact Hmf|].
  rewrite flush_reload_threshold_exact.
  set (r := mean_reload_time gem5 reload_clock) in *.
  set (f := mean_flush_reload_time gem5 flush_clock) in *.
  split.
  - split; apply Z.div_le_mono; lia.
  - intros Hsep.
    pose proof (Z.div_mod (f + r * 2) 3 ltac:(lia)) as Hdm.
    pose proof (Z.mod_pos_bound (f + r * 2) 3 ltac:(lia)) as Hmod.
    lia.
Qed.

Lemma calibration_within_samples_witness :
  flush_reload_threshold 1 (fun _ => (0, 60)) (fun _ => (0, 300)) = 140.
Proof.
  destruct (calibration_within_samples 1 (fun _ => (0, 60)) (fun _ => (0, 300))
              60 60 300 300) as (_ & _ & Ht & _).
  - lia.
  - lia.
  - intros i Hi. vm_compute. split; discriminate.
  - intros i Hi. vm_compute. split; discriminate.
  - change ((300 + 2 * 60) / 3) with 140 in Ht. lia.
Defined.

(** ** More on the engine *)

Lemma engine_always_guesses_witness :
  exists j k,
    best (fst (engine_loop never_hits (main_globals 100) 200 one_try))
    = Some (j, k)
    /\ 0 <= j < 256
    /\ (1 <= Z.of_nat (rounds_run (fst (engine_loop never_hits
                                          (main_globals 100) 200 one_try)))
        <= tries one_try)
    /\ (forall c, 0 <= c < 256 ->
          0 <= load (results (fst (engine_loop never_hits (main_globals 100)
                                     200 one_try))) c
          <= Z.of_nat (rounds_run (fst (engine_loop never_hits
                                          (main_globals 100) 200 one_try))))
    /\ spectre_pht_sa_ip_read never_hits (main_globals 100) 200 one_try
       = Some (j, if j =? 0
                  then Z.lxor (load (results (fst (engine_loop never_hits
                                 (main_globals 100) 200 one_try))) 0)
                              (junk (fst (engine_loop never_hits
                                 (main_globals 100) 200 one_try)))
                  else load (results (fst (engine_loop never_hits
                                 (main_globals 100) 200 one_try))) j).
Proof.
  apply (engine_always_guesses never_hits (main_globals 100) 200 one_try).
  vm_compute. discriminate.
Defined.

Section Independence.

Variable m : machine.

Lemma measure_step_same (g g' : globals) (tries training_x : Z)
    (acc : list Z * Z) (i : Z) :
  same_arrays g g' ->
  measure_step g' m tries training_x acc i
  = measure_step g m tries training_x acc i.
Proof.
  intros Hs. unfold measure_step.
  rewrite (is_hit_same g g' _ _ _ Hs).
  destruct Hs as (_ & _ & Ha2 & _). rewrite Ha2. reflexivity.
Qed.

Lemma measure_channel_same (g g' : globals) (tries training_x : Z)
    (results : list Z) (junk : Z) :
  same_arrays g g' ->
  measure_channel g' m tries training_x results junk
  = measure_channel g m tries training_x results junk.
Proof.
  intros Hs. unfold measure_channel.
  generalize (results, junk). generalize candidates.
  intros l. induction l as [|i l IH]; intros acc; [reflexivity|].
  cbn [fold_left]. rewrite (measure_step_same g g' _ _ _ _ Hs). apply IH.
Qed.

Lemma attempt_same_view (loops loops' malicious_x malicious_x' tries : Z)
    (st st' : engine) :
  same_view st st' ->
  same_view (attempt m loops malicious_x tries st)
            (attempt m loops' malicious_x' tries st').
Proof.
  intros (Hr & Hj & Hb & Hn & Hs).
  assert (Ht : training_offset (globs st') tries
               = training_offset (globs st) tries).
  { destruct Hs as (_ & Hs & _ & _). unfold training_offset. rewrite Hs.
    reflexivity. }
  assert (Hg : same_arrays
                 (fst (train_and_attack (globs st) loops
                         (training_offset (globs st) tries) malicious_x))
                 (fst (train_and_attack (globs st') loops'
                         (training_offset (globs st') tries) malicious_x'))).
  { destruct (train_and_attack_globals (globs st) loops
                (training_offset (globs st) tries) malicious_x)
      as [(H1 & H2 & H3 & H4) _].
    destruct (train_and_attack_globals (globs st') loops'
                (training_offset (globs st') tries) malicious_x')
      as [(H1' & H2' & H3' & H4') _].
    destruct Hs as (G1 & G2 & G3 & G4).
    repeat split; congruence. }
  assert (Hm : measure_channel
                 (fst (train_and_attack (globs st') loops'
                         (training_offset (globs st') tries) malicious_x'))
                 m tries (training_offset (globs st') tries)
                 (results st') (junk st')
               = measure_channel
                   (fst (train_and_attack (globs st) loops
                           (training_offset (globs st) tries) malicious_x))
                   m tries (training_offset (globs st) tries)
                   (results st) (junk st)).
  { rewrite Hr, Hj. rewrite Ht in Hg |- *. apply measure_channel_same, Hg. }
  unfold same_view.
  rewrite !rounds_run_attempt, !attempt_best, !attempt_results, !attempt_globs.
  unfold attempt at 1 2. cbn [junk].
  rewrite Hm, Hn. split; [|split; [|split; [|split]]]; try reflexivity.
  exact Hg.
Qed.

Lemma clear_success_now_same (st st' : engine) :
  same_view st st' -> clear_success_now st' = clear_success_now st.
Proof.
  intros (Hr & _ & Hb & _). unfold clear_success_now. rewrite Hr, Hb.
  reflexivity.
Qed.

Lemma attempts_same_view (loops loops' malicious_x malicious_x' : Z) (n : nat) :
  forall st st',
    same_view st st' ->
    same_view (fst (attempts m loops malicious_x n st))
              (fst (attempts m loops' malicious_x' n st')).
Proof.
  induction n as [|n IH]; intros st st' Hv; cbn [attempts]; [exact Hv|].
  pose proof (attempt_same_view loops loops' malicious_x malicious_x'
                (Z.of_nat (S n)) st st' Hv) as Hv'.
  rewrite (clear_success_now_same _ _ Hv').
  destruct (clear_success_now _); cbn [fst]; [exact Hv'|].
  apply IH, Hv'.
Qed.

End Independence.

(** X16. Architecturally the guess carries nothing of the target: the value,
    the score and the number of rounds of a run are the same for every
    offset [malicious_x] and every number of loops; with the same machine
    timings, number of tries and globals they do not depend on what the
    victim was asked to read. *)
Theorem guess_independent_of_offset (m : machine) (g : globals)
    (malicious_x malicious_x' : Z) (args args' : arguments) :
  tries args' = tries args ->
  spectre_pht_sa_ip_read m g malicious_x' args'
  = spectre_pht_sa_ip_read m g malicious_x args
  /\ rounds_run (fst (engine_loop m g malicious_x' args'))
     = rounds_run (fst (engine_loop m g malicious_x args)).
Proof.
  intros Ht.
  assert (Hv : same_view (engine_start g) (engine_start g)).
  { unfold same_view. repeat split. }
  pose proof (attempts_same_view m (loops args) (loops args') malicious_x
                malicious_x' (Z.to_nat (tries args)) _ _ Hv)
    as (Hr & Hj & Hb & Hn & _).
  unfold spectre_pht_sa_ip_read, engine_loop. rewrite Ht.
  split; [|exact Hn].
  unfold report. rewrite Hr, Hj, Hb. reflexivity.
Qed.

Lemma guess_independent_of_offset_witness :
  spectre_pht_sa_ip_read only_zero_hits (main_globals 100) 4242 arg_init
  = spectre_pht_sa_ip_read only_zero_hits (main_globals 100) 200
      {| quiet := 1; verbose := 0; meta := 1; tries := 999; loops := 5;
         cache_threshold := 0 |}.
Proof.
  apply (guess_independent_of_offset only_zero_hits (main_globals 100)
           200 4242 _ arg_init).
  reflexivity.
Defined.

(** X17. With a negative threshold the comparison of line 148, made on
    [uint64_t], holds for every latency below 2^63: a round then scores
    every candidate but [array1[training_x]]. *)
Theorem negative_threshold_scores_all (g : globals) (m : machine)
    (tries training_x : Z) (results : list Z) (junk c : Z) :
  - 2 ^ 31 <= CACHE_HIT_THRESHOLD g < 0 ->
  (forall i, 0 <= i < 256 -> reload_time m tries i < 2 ^ 63) ->
  length results = 256%nat -> 0 <= c < 256 ->
  load (fst (measure_channel g m tries training_x results junk)) c
  = load results c + (if c =? load (array1 g) training_x then 0 else 1).
Proof.
  intros Hthr Hlat Hlen Hc.
  pose proof (unmix_range c Hc) as Hu.
  rewrite <- (mix_unmix c Hc) at 1 2.
  rewrite measure_channel_visited by assumption.
  rewrite (mix_unmix c Hc).
  rewrite is_hit_negative_threshold; [|exact Hthr|].
  - destruct (c =? load (array1 g) training_x); reflexivity.
  - split; [|apply Hlat, Hu].
    unfold reload_time. apply to_size_t_range.
Qed.

Lemma negative_threshold_scores_all_witness :
  load (fst (measure_channel (main_globals (-1)) never_hits 1 1
               (replicate 256 0) 0)) 65
  = load (replicate 256 0) 65
    + (if 65 =? load (array1 (main_globals (-1))) 1 then 0 else 1).
Proof.
  apply (negative_threshold_scores_all (main_globals (-1)) never_hits 1 1
           (replicate 256 0) 0 65).
  - vm_compute. split; [discriminate | reflexivity].
  - intros i Hi. vm_compute. reflexivity.
  - reflexivity.
  - lia.
Defined.

(** ** One repetition of the experiment *)

Section Experiment.

Variables (machines : Z -> machine) (args : arguments).

Lemma mapM_id_Some (l : list (Z * Z)) : mapM id (map Some l) = Some l.
Proof.
  induction l as [|x l IH]; [reflexivity|].
  cbn [map mapM]. rewrite IH. reflexivity.
Qed.

(** With at least one try every call of the engine reports a guess, whose
    value is a byte. *)
Lemma read_bytes_guesses (n : nat) :
  1 <= tries args ->
  forall i malicious_x g,
    exists guesses,
      read_bytes machines args n i malicious_x g = map Some guesses
      /\ length guesses = n
      /\ Forall (fun p => 0 <= fst p < 256) guesses.
Proof.
  intros Ht. induction n as [|n IH]; intros i malicious_x g.
  - exists []. repeat split. apply Forall_nil_2.
  - cbn [read_bytes].
    destruct (IH (i + 1) (to_size_t (malicious_x + 1))
                (globs (fst (engine_loop (machines i) g malicious_x args))))
      as (guesses & Hg & Hlen & Hall).
    destruct (attempts_best (machines i) (loops args) malicious_x
                (Z.to_nat (tries args)) (engine_start g) ltac:(lia))
      as (j & k & Hbest & Hj).
    fold (engine_loop (machines i) g malicious_x args) in Hbest.
    unfold report at 1. rewrite Hbest.
    eexists (_ :: guesses). split; [rewrite Hg; reflexivity|].
    split; [cbn [length]; rewrite Hlen; reflexivity|].
    apply Forall_cons_2; [|exact Hall].
    cbn [fst]. unfold to_uint8. apply Z.mod_pos_bound. lia.
Qed.

Lemma training_byte_small (g : globals) (tries : Z) :
  array1 g = array1 initial_globals -> array1_size g = 16 ->
  load (array1 g) (training_offset g tries) <= 16.
Proof.
  intros Ha Hs. unfold training_offset, to_size_t, SIZE_BITS. rewrite Ha, Hs.
  pose proof (Z.mod_pos_bound (to_uint32 tries) 16 ltac:(lia)) as Hr.
  rewrite Z.mod_small by lia.
  assert (Hall : Forall (fun x => load (array1 initial_globals) x <= 16)
                        (seqZ 0 16)).
  { apply Forall_forall. intros x Hx.
    assert (Hb : forallb (fun x => load (array1 initial_globals) x <=? 16)
                         (seqZ 0 16) = true) by (vm_compute; reflexivity).
    rewrite forallb_forall in Hb.
    apply Z.leb_le, Hb, Hx. }
  rewrite Forall_seqZ in Hall. apply Hall. lia.
Qed.

Lemma secret_bytes_printable (i : Z) :
  0 <= i < 40 -> 32 <= load (string_bytes secret) i < 127.
Proof.
  intros Hi.
  assert (Hb : forallb (fun i => (32 <=? load (string_bytes secret) i)
                                 && (load (string_bytes secret) i <? 127))
                       (seqZ 0 40) = true) by (vm_compute; reflexivity).
  rewrite forallb_forall in Hb.
  specialize (Hb i ltac:(apply list_elem_of_In, elem_of_seqZ; lia)).
  cbv beta in Hb. apply andb_true_iff in Hb. lia.
Qed.

Lemma read_bytes_leak (start : globals) (n : nat) :
  1 <= tries args ->
  0 <= CACHE_HIT_THRESHOLD start <= INT_MAX ->
  array1 start = array1 initial_globals -> array1_size start = 16 ->
  forall i malicious_x g,
    0 <= i -> i + Z.of_nat n <= 40 ->
    same_arrays start g ->
    (forall k v, i <= k < i + Z.of_nat n -> 0 <= v < 256 ->
       reload_time (machines k) (tries args) v <= CACHE_HIT_THRESHOLD start
       <-> mix v = load (string_bytes secret) k) ->
    read_bytes machines args n i malicious_x g
    = map (fun k => Some (load (string_bytes secret) k, 1))
          (seqZ i (Z.of_nat n)).
Proof.
  intros Ht Hthr Ha Hs. induction n as [|n IH];
    intros i malicious_x g Hi Hn Hsame Hleak; [reflexivity|].
  cbn [read_bytes].
  rewrite seqZ_cons by lia. cbn [map].
  replace (Z.pred (Z.of_nat (S n))) with (Z.of_nat n) by lia.
  replace (Z.succ i) with (i + 1) by lia.
  destruct Hsame as (Ha' & Hs' & Ha2' & Hthr').
  pose proof (secret_bytes_printable i ltac:(lia)) as Hb.
  pose proof (training_byte_small g (tries args)
                ltac:(congruence) ltac:(congruence)) as Htb.
  destruct (engine_loop_leak (machines i) g malicious_x args
              (load (string_bytes secret) i) Ht
              ltac:(rewrite Hthr'; exact Hthr) ltac:(lia) ltac:(lia))
    as [_ Hrep].
  { intros v Hv. rewrite Hthr'. apply Hleak; lia. }
  rewrite Hrep.
  replace (load (string_bytes secret) i =? 0) with false by lia.
  f_equal. apply IH; [lia | lia | |].
  - eapply same_arrays_trans;
      [exact (conj Ha' (conj Hs' (conj Ha2' Hthr')))|].
    apply (proj1 (attempts_globals (machines i) (loops args) malicious_x
                    (Z.to_nat (tries args)) (engine_start g))).
  - intros k v Hk Hv. apply Hleak; lia.
Qed.

End Experiment.

(** X13. With at least one try every call of the engine reports a guess,
    so a repetition reports 40 bytes in total, the length of the secret,
    and a number of correct bytes between 0 and 40. *)
Theorem experiment_counts (machines : Z -> machine) (args : arguments)
    (malicious_x calibrated : Z) (g : globals) :
  1 <= tries args ->
  exists correct sum,
    experiment machines args malicious_x calibrated g = Some (40, correct, sum)
    /\ 0 <= correct <= 40.
Proof.
  intros Ht. unfold experiment.
  change (Z.of_nat (String.length secret)) with 40.
  destruct (read_bytes_guesses machines args (Z.to_nat 40) Ht 0 malicious_x
              (prepare_globals g (choose_threshold args calibrated)))
    as (guesses & Hg & Hlen & _).
  cbv zeta. rewrite Hg, mapM_id_Some. cbn [mbind option_bind].
  eexists _, _. split; [reflexivity|].
  pose proof (string_hamming_dist_range (string_bytes secret)
                (map fst guesses ++ [0]) 40) as Hr.
  change (Z.of_nat 40) with 40 in Hr. lia.
Qed.

Lemma experiment_counts_witness :
  exists correct sum,
    experiment (fun _ => never_hits) arg_init 200 140 initial_globals
    = Some (40, correct, sum)
    /\ 0 <= correct <= 40.
Proof.
  apply (experiment_counts (fun _ => never_hits) arg_init 200 140
           initial_globals).
  vm_compute. discriminate.
Defined.

(** X14. End to end: when in each call the only fast reload is that of
    the secret byte at that position, a repetition reads the 40 bytes of
    the secret, each in one round with score 1, and reports 40 bytes, 40
    correct and a score sum of 40, whatever [tries], [loops] and the
    offset are. *)
Theorem experiment_leak (machines : Z -> machine) (args : arguments)
    (malicious_x calibrated : Z) (g : globals) :
  1 <= tries args ->
  0 <= choose_threshold args calibrated ->
  array1 g = array1 initial_globals -> array1_size g = 16 ->
  (forall i v, 0 <= i < 40 -> 0 <= v < 256 ->
     reload_time (machines i) (tries args) v
     <= choose_threshold args calibrated
     <-> mix v = load (string_bytes secret) i) ->
  experiment machines args malicious_x calibrated g = Some (40, 40, Some 40).
Proof.
  intros Ht Hthr Ha Hs Hleak. unfold experiment.
  change (Z.of_nat (String.length secret)) with 40.
  cbv zeta.
  rewrite (read_bytes_leak machines args
             (prepare_globals g (choose_threshold args calibrated))
             (Z.to_nat 40) Ht).
  - vm_compute. reflexivity.
  - cbn [CACHE_HIT_THRESHOLD prepare_globals].
    split; [exact Hthr | apply to_int_range].
  - exact Ha.
  - exact Hs.
  - lia.
  - vm_compute. discriminate.
  - apply same_arrays_refl.
  - intros k v Hk Hv. cbn [CACHE_HIT_THRESHOLD prepare_globals].
    apply Hleak; [|exact Hv]. change (Z.of_nat (Z.to_nat 40)) with 40 in Hk.
    lia.
Qed.

Lemma experiment_leak_witness :
  experiment (fun i => leaks (load (string_bytes secret) i)) arg_init 200 140
             initial_globals
  = Some (40, 40, Some 40).
Proof.
  apply (experiment_leak (fun i => leaks (load (string_bytes secret) i))
           arg_init 200 140 initial_globals).
  - vm_compute. discriminate.
  - vm_compute. discriminate.
  - reflexivity.
  - reflexivity.
  - intros i v Hi Hv.
    change (choose_threshold arg_init 140) with 140.
    unfold reload_time, leaks, to_size_t, SIZE_BITS.
    cbn [rdtsc_start rdtsc_end].
    destruct (Z.eqb_spec (mix v) (load (string_bytes secret) i)) as [E|E].
    + split; [intros _; exact E | intros _; vm_compute; discriminate].
    + split; [intros H; vm_compute in H; exfalso; apply H; reflexivity
             | intros H; contradiction].
Defined.
